(** * pkg/parallel: the parallel loop executor

    A shallow embedding of the [parallel] package, the executor and its
    serial counterpart, and a verification of its loop contracts.

    A call of [For] or [ForWithContext] spawns [numGoroutines] goroutines
    which share an error slot ([errOnce], [loopErr]), the strategy's state
    and, in the context variant, the derived context.  The goroutines are
    modelled by an interleaving semantics: every goroutine has a program
    point, a step of the machine lets one goroutine execute up to its next
    access to shared memory, and a schedule is the list of the goroutines
    chosen.  Theorems about a call quantify over all schedules.

    Go's [int] is modelled by [Z]; the executor itself only counts
    goroutine ids up to [numGoroutines] and compares indices with [N], so
    no arithmetic of the executor can leave the range of [int].  A Go
    [error] is an [option E], [None] being [nil]. *)

From stdpp Require Import base list gmap strings.
From Stdlib Require Import ZArith Lia.
From Stdlib Require Strings.Byte.

Local Open Scope Z_scope.

(** ** Strategies and index generators *)

(** The interfaces [Strategy] and [IndexGenerator].  A strategy object may
    own memory that all its generators reference ([shared]); a generator
    owns a cursor of its own ([generator]).  [IndexGenerator numGoroutines
    grID N] makes the generator of goroutine [grID], and [Next] returns the
    claimed index together with the updated cursor and shared memory. *)
Record Strategy := {
  shared : Type;
  generator : Type;
  shared_init : shared;
  IndexGenerator : Z -> Z -> Z -> generator;
  Next : generator -> shared -> Z * generator * shared
}.

(** Modelled from the spec: the contiguous blocks strategy (the file of
    the strategies is not part of the sources at hand).  [0, N) is divided into
    [numGoroutines] blocks of size [floor (N / numGoroutines)], the first
    [N mod numGoroutines] blocks taking one more element; a generator
    increments through its own half-open range and then reports the
    sentinel [N]. *)
Record blockCursor := { cur : Z; stop : Z; sentinel : Z }.

Definition block_size (numGoroutines grID N : Z) : Z :=
  N / numGoroutines + (if grID <? N mod numGoroutines then 1 else 0).

Definition block_start (numGoroutines grID N : Z) : Z :=
  grID * (N / numGoroutines) + Z.min grID (N mod numGoroutines).

Definition contiguousIndexGenerator (numGoroutines grID N : Z) : blockCursor :=
  {| cur := block_start numGoroutines grID N;
     stop := block_start numGoroutines grID N + block_size numGoroutines grID N;
     sentinel := N |}.

Definition contiguousNext (g : blockCursor) (u : unit) : Z * blockCursor * unit :=
  if cur g <? stop g
  then (cur g, {| cur := cur g + 1; stop := stop g; sentinel := sentinel g |}, u)
  else (sentinel g, g, u).

Definition newContiguousBlocksStrategy : Strategy :=
  {| shared := unit;
     generator := blockCursor;
     shared_init := tt;
     IndexGenerator := contiguousIndexGenerator;
     Next := contiguousNext |}.

(** Modelled from the spec: the atomic counter strategy (the file of the
    strategies is not part of the sources at hand).  One counter, 0 when the invocation
    starts, is shared by all generators; [Next] atomically increments it
    and returns the value it had before. *)
Definition atomicNext (g : unit) (counter : Z) : Z * unit * Z :=
  (counter, g, counter + 1).

Definition newAtomicCounterStrategy : Strategy :=
  {| shared := Z;
     generator := unit;
     shared_init := 0;
     IndexGenerator := fun _ _ _ => tt;
     Next := atomicNext |}.

(** Modelled from the spec: the enumerated tag [StrategyType] (declared
    with the strategies); a Go integer type also has values outside its
    named constants. *)
Inductive StrategyType :=
| StrategyUseDefaults
| StrategyPreassignIndices
| StrategyFetchNextIndex
| StrategyUnrecognized (tag : Z).

(** ** The executor and its configuration *)

Record Executor := {
  numGoroutines : Z;
  parallelStrategy : option Strategy
}.

(** [DefaultNumGoroutines] is a parameter of the constructor.
    [WithCPUProportion], which sets the count to [max (p * NumCPU) 1] in
    floating point, is a [WithNumGoroutines] with a count of at least 1
    and is not embedded. *)
Definition NewExecutor (defaultNumGoroutines : Z) : Executor :=
  {| numGoroutines := defaultNumGoroutines; parallelStrategy := None |}.

Definition NumGoroutines (e : Executor) : Z := numGoroutines e.

Definition WithNumGoroutines (n : Z) (e : Executor) : Executor :=
  {| numGoroutines := n; parallelStrategy := parallelStrategy e |}.

Definition WithStrategy (strategyType : StrategyType) (e : Executor) : Executor :=
  {| numGoroutines := numGoroutines e;
     parallelStrategy :=
       match strategyType with
       | StrategyPreassignIndices => Some newContiguousBlocksStrategy
       | StrategyFetchNextIndex => Some newAtomicCounterStrategy
       | _ => None
       end |}.

Definition WithCustomStrategy (customStrategy : Strategy) (e : Executor) : Executor :=
  {| numGoroutines := numGoroutines e; parallelStrategy := Some customStrategy |}.

(** The first statement of [For]: the strategy of the call. *)
Definition For_strategy (e : Executor) : Strategy :=
  match parallelStrategy e with
  | Some strategy => strategy
  | None => newContiguousBlocksStrategy
  end.

(** The first statement of [ForWithContext]. *)
Definition ForWithContext_strategy (e : Executor) : Strategy :=
  match parallelStrategy e with
  | Some strategy => strategy
  | None => newContiguousBlocksStrategy
  end.

(** The first index a goroutine claims when it is the first to run. *)
Definition first_claim (s : Strategy) (numGoroutines grID N : Z) : Z :=
  (Next s (IndexGenerator s numGoroutines grID N) (shared_init s)).1.1.

(** ** Events *)

(** What a goroutine does is logged, newest event first.  The log is ghost
    state: no step reads it. *)
Inductive event {E : Type} :=
| EvNext (grID : nat) (i : Z)
    (* indexGenerator.Next() returned i *)
| EvPass (grID : nat) (i : Z)
    (* loopCtx.Err() was nil before the body of index i *)
| EvStop (grID : nat) (i : Z)
    (* loopCtx.Err() was not nil before the body of index i: return *)
| EvBody (grID : nat) (i : Z) (r : option E)
    (* loopBody(i, grID) was called and returned r *)
| EvOnce (grID : nat) (err : E) (ran : bool)
    (* errOnce.Do was called with err; ran: the function was executed *)
| EvCancel.
    (* the context of the caller was cancelled or expired *)
Arguments event : clear implicits.

Definition ev_grID {E} (ev : event E) : option nat :=
  match ev with
  | EvNext w _ | EvPass w _ | EvStop w _ | EvBody w _ _ | EvOnce w _ _ => Some w
  | EvCancel => None
  end.

(** The events of one goroutine. *)
Definition by_grID {E} (w : nat) (ev : event E) : bool :=
  match ev_grID ev with Some w' => Nat.eqb w' w | None => false end.

(** The calls of the loop body in a log, as pairs (index, goroutine). *)
Fixpoint body_calls {E} (tr : list (event E)) : list (Z * nat) :=
  match tr with
  | [] => []
  | EvBody w i _ :: tr => (i, w) :: body_calls tr
  | _ :: tr => body_calls tr
  end.

(** The indices passed to the loop body. *)
Definition body_indices {E} (tr : list (event E)) : list Z := (body_calls tr).*1.

Definition is_body {E} (ev : event E) : bool :=
  match ev with EvBody _ _ _ => true | _ => false end.

Definition is_once {E} (ev : event E) : bool :=
  match ev with EvOnce _ _ _ => true | _ => false end.

Definition is_stop {E} (ev : event E) : bool :=
  match ev with EvStop _ _ => true | _ => false end.

Definition is_failure {E} (ev : event E) : bool :=
  match ev with EvBody _ _ (Some _) => true | _ => false end.

Definition is_capture {E} (ev : event E) : bool :=
  match ev with EvOnce _ _ true => true | _ => false end.

(** The events after which [loopCtx.Err()] is not nil. *)
Definition is_cancelling {E} (ev : event E) : bool :=
  match ev with EvOnce _ _ true | EvCancel => true | _ => false end.

(** ** The state of one invocation *)

Section Invocation.
Context {E St : Type}.
Variable strategy : Strategy.
Variable nG N : Z.

(** Program points of a goroutine, [func(grID int)] of [For] and of
    [ForWithContext]. *)
Inductive pc :=
| PNext (g : generator strategy)
    (* at indexGenerator.Next() *)
| PCheck (g : generator strategy) (i : Z)
    (* i < N held; at loopCtx.Err() (ForWithContext only) *)
| PBody (g : generator strategy) (i : Z)
    (* at loopBody(i, grID) *)
| POnce (err : E)
    (* loopBody returned err; at errOnce.Do *)
| PDone.
    (* returned, wg.Done() executed *)

Record state := {
  workers : list pc;
  mem : shared strategy;       (* the memory of the strategy *)
  errOnce : bool;              (* errOnce has fired *)
  loopErr : option E;
  ctxErr : bool;               (* loopCtx.Err() != nil *)
  caller : St;                 (* what the loop body reads and writes *)
  trace : list (event E)
}.

Definition is_done (p : pc) : bool :=
  match p with PDone => true | _ => false end.

(** [wg.Wait()] returns when all goroutines have returned. *)
Definition joined (s : state) : bool := forallb is_done (workers s).

(** The goroutines spawned by the loop [for grID := 0; grID <
    numGoroutines; grID++], each with the generator it makes first. *)
Definition spawn : list pc :=
  (λ grID : nat, PNext (IndexGenerator strategy nG (Z.of_nat grID) N))
    <$> seq 0 (Z.to_nat nG).

Definition set_worker (w : nat) (p : pc) (ev : event E) (s : state) : state :=
  {| workers := <[w := p]> (workers s); mem := mem s; errOnce := errOnce s;
     loopErr := loopErr s; ctxErr := ctxErr s; caller := caller s;
     trace := ev :: trace s |}.

Definition set_mem (m : shared strategy) (s : state) : state :=
  {| workers := workers s; mem := m; errOnce := errOnce s;
     loopErr := loopErr s; ctxErr := ctxErr s; caller := caller s;
     trace := trace s |}.

Definition set_caller (st : St) (s : state) : state :=
  {| workers := workers s; mem := mem s; errOnce := errOnce s;
     loopErr := loopErr s; ctxErr := ctxErr s; caller := st;
     trace := trace s |}.

Definition set_loopErr (err : E) (s : state) : state :=
  {| workers := workers s; mem := mem s; errOnce := true;
     loopErr := Some err; ctxErr := ctxErr s; caller := caller s;
     trace := trace s |}.

Definition emit (ev : event E) (s : state) : state :=
  {| workers := workers s; mem := mem s; errOnce := errOnce s;
     loopErr := loopErr s; ctxErr := ctxErr s; caller := caller s;
     trace := ev :: trace s |}.

(** [cancel()], also what the cancellation of the caller's context does
    to the derived context. *)
Definition cancel (s : state) : state :=
  {| workers := workers s; mem := mem s; errOnce := errOnce s;
     loopErr := loopErr s; ctxErr := true; caller := caller s;
     trace := trace s |}.

(** *** For *)

Section For.
Variable loopBody : Z -> Z -> St -> St * option E.

Definition For_init (st : St) : state :=
  {| workers := spawn; mem := shared_init strategy; errOnce := false;
     loopErr := None; ctxErr := false; caller := st; trace := [] |}.

(** One step of goroutine [w]. *)
Definition For_step (w : nat) (s : state) : option state :=
  match workers s !! w with
  | Some (PNext g) =>
      let '(i, g', m') := Next strategy g (mem s) in
      Some (set_worker w (if i <? N then PBody g' i else PDone)
              (EvNext w i) (set_mem m' s))
  | Some (PBody g i) =>
      let '(st', r) := loopBody i (Z.of_nat w) (caller s) in
      Some (set_worker w (match r with Some err => POnce err | None => PNext g end)
              (EvBody w i r) (set_caller st' s))
  | Some (POnce err) =>
      if errOnce s
      then Some (set_worker w PDone (EvOnce w err false) s)
      else Some (set_worker w PDone (EvOnce w err true) (set_loopErr err s))
  | _ => None
  end.
End For.

(** *** ForWithContext *)

Inductive label :=
| Run (w : nat)      (* goroutine w takes a step *)
| Expire.            (* the context of the caller is cancelled *)

Section ForWithContext.
(** The body receives [loopCtx]; what it can observe of it is whether
    it is cancelled. *)
Variable loopBody : bool -> Z -> Z -> St -> St * option E.

(** [ctx_done]: the context of the caller is cancelled already. *)
Definition ForWithContext_init (ctx_done : bool) (st : St) : state :=
  {| workers := spawn; mem := shared_init strategy; errOnce := false;
     loopErr := None; ctxErr := ctx_done; caller := st; trace := [] |}.

Definition ForWithContext_step (l : label) (s : state) : option state :=
  match l with
  | Expire =>
      if ctxErr s then None else Some (cancel (emit EvCancel s))
  | Run w =>
      match workers s !! w with
      | Some (PNext g) =>
          let '(i, g', m') := Next strategy g (mem s) in
          Some (set_worker w (if i <? N then PCheck g' i else PDone)
                  (EvNext w i) (set_mem m' s))
      | Some (PCheck g i) =>
          if ctxErr s
          then Some (set_worker w PDone (EvStop w i) s)
          else Some (set_worker w (PBody g i) (EvPass w i) s)
      | Some (PBody g i) =>
          let '(st', r) := loopBody (ctxErr s) i (Z.of_nat w) (caller s) in
          Some (set_worker w (match r with Some err => POnce err | None => PNext g end)
                  (EvBody w i r) (set_caller st' s))
      | Some (POnce err) =>
          if errOnce s
          then Some (set_worker w PDone (EvOnce w err false) s)
          else Some (set_worker w PDone (EvOnce w err true)
                       (cancel (set_loopErr err s)))
      | _ => None
      end
  end.
End ForWithContext.

(** *** Executions *)

(** [run step sched s]: the state after the steps of [sched], the first
    of the list first; [None] when a chosen step is not enabled. *)
Fixpoint run {L} (step : L -> state -> option state) (sched : list L)
    (s : state) : option state :=
  match sched with
  | [] => Some s
  | l :: sched => match step l s with
                  | Some s' => run step sched s'
                  | None => None
                  end
  end.

(** A call terminates from [s0] when its executions have bounded length
    and a state in which some goroutine has not returned has a step. *)
Definition terminates {L} (step : L -> state -> option state) (s0 : state) : Prop :=
  ∃ bound : nat, ∀ sched s, run step sched s0 = Some s ->
    (length sched ≤ bound)%nat ∧ (joined s = false -> ∃ l, is_Some (step l s)).

(** *** The log of one goroutine *)

Definition wlog (w : nat) (s : state) : list (event E) :=
  filter (λ ev, by_grID w ev) (trace s).

(** The events from [Next] to the call of the body for index [i]; [ctx]
    tells the variant, [true] for [ForWithContext]. *)
Definition claimed (ctx : bool) (w : nat) (i : Z) (h : list (event E)) : list (event E) :=
  if ctx then EvPass w i :: EvNext w i :: h else EvNext w i :: h.

(** Completed iterations of the loop of goroutine [w], newest first. *)
Inductive iterations (ctx : bool) (w : nat) : list (event E) -> Prop :=
| iterations_nil : iterations ctx w []
| iterations_cons i h :
    i < N -> iterations ctx w h ->
    iterations ctx w (EvBody w i None :: claimed ctx w i h).

(** The log of a goroutine that has returned: its generator was exhausted,
    or it saw the context cancelled, or its own call of the body failed. *)
Inductive stopped (ctx : bool) (w : nat) : list (event E) -> Prop :=
| stopped_exhausted i h :
    N ≤ i -> iterations ctx w h -> stopped ctx w (EvNext w i :: h)
| stopped_cancelled i h :
    ctx = true -> i < N -> iterations ctx w h ->
    stopped ctx w (EvStop w i :: EvNext w i :: h)
| stopped_failed err ran i h :
    i < N -> iterations ctx w h ->
    stopped ctx w (EvOnce w err ran :: EvBody w i (Some err) :: claimed ctx w i h).

Definition log_at (ctx : bool) (w : nat) (p : pc) (h : list (event E)) : Prop :=
  match p with
  | PNext _ => iterations ctx w h
  | PCheck _ i => ctx = true ∧ i < N ∧ ∃ h', h = EvNext w i :: h' ∧ iterations ctx w h'
  | PBody _ i => i < N ∧ ∃ h', h = claimed ctx w i h' ∧ iterations ctx w h'
  | POnce err =>
      ∃ i h', i < N ∧ h = EvBody w i (Some err) :: claimed ctx w i h' ∧ iterations ctx w h'
  | PDone => stopped ctx w h
  end.

(** *** Indices not yet claimed *)

(** For a strategy that partitions [0, N): the indices a generator has
    still to return ([pool_g]) and those the shared memory has still to
    hand out ([pool_m]); [gen_ok] holds of the generators of a call. *)
Record Pools := {
  gen_ok : generator strategy -> Prop;
  pool_g : generator strategy -> list Z;
  pool_m : shared strategy -> list Z
}.

Definition partitions (P : Pools) : Prop :=
  (∀ w : nat, (w < Z.to_nat nG)%nat ->
     gen_ok P (IndexGenerator strategy nG (Z.of_nat w) N))
  ∧ concat ((λ w : nat, pool_g P (IndexGenerator strategy nG (Z.of_nat w) N))
              <$> seq 0 (Z.to_nat nG))
      ++ pool_m P (shared_init strategy) ≡ₚ seqZ 0 N
  ∧ (∀ g m i g' m', gen_ok P g -> Next strategy g m = (i, g', m') ->
       gen_ok P g'
       ∧ if i <? N
         then pool_g P g ++ pool_m P m ≡ₚ i :: pool_g P g' ++ pool_m P m'
              ∧ (pool_m P m = [] -> pool_m P m' = [])
         else pool_g P g = [] ∧ pool_m P m = [] ∧ pool_m P m' = []).

(** The indices a goroutine at [p] will still pass to the body. *)
Definition owed (P : Pools) (p : pc) : list Z :=
  match p with
  | PNext g => pool_g P g
  | PCheck g i | PBody g i => i :: pool_g P g
  | _ => []
  end.

Definition pc_ok (P : Pools) (p : pc) : Prop :=
  match p with
  | PNext g | PCheck g _ | PBody g _ => gen_ok P g
  | _ => True
  end.

Definition weight (P : Pools) (p : pc) : nat :=
  match p with
  | PNext g => 1 + 3 * length (pool_g P g)
  | PCheck g _ => 3 + 3 * length (pool_g P g)
  | PBody g _ => 2 + 3 * length (pool_g P g)
  | POnce _ => 1
  | PDone => 0
  end.

(** The number of steps a call can still take is at most [measure]. *)
Definition measure (P : Pools) (s : state) : nat :=
  sum_list (weight P <$> workers s) + 3 * length (pool_m P (mem s))
  + (if ctxErr s then 0 else 1).

(** *** Invariants of a call *)

(** Every goroutine's log is the one of its program point. *)
Definition logs_ok (ctx : bool) (s : state) : Prop :=
  ∀ w p, workers s !! w = Some p -> log_at ctx w p (wlog w s).

(** The error slot holds the error of the first call of [errOnce.Do],
    which ran, and which followed a call of the body that returned it; no
    later call of [errOnce.Do] ran. *)
Definition once_ok (s : state) : Prop :=
  match loopErr s with
  | None => errOnce s = false ∧ Forall (λ ev, is_once ev = false) (trace s)
  | Some err =>
      errOnce s = true
      ∧ ∃ w i post pre,
          trace s = post ++ EvOnce w err true :: pre
          ∧ Forall (λ ev, is_once ev = false) pre
          ∧ Forall (λ ev, is_capture ev = false) post
          ∧ EvBody w i (Some err) ∈ pre
  end.

(** The derived context is cancelled as soon as the caller's context is
    or [errOnce.Do] ran, and no check passes afterwards. *)
Definition cancel_ok (ctx_done : bool) (s : state) : Prop :=
  (ctxErr s = false ->
     ctx_done = false ∧ Forall (λ ev, is_cancelling ev = false) (trace s))
  ∧ (∀ post w i pre, trace s = post ++ EvPass w i :: pre ->
       ctx_done = false ∧ Forall (λ ev, is_cancelling ev = false) pre).

(** [For] has no goroutine at the check of the context. *)
Definition no_check (s : state) : Prop :=
  Forall (λ p, match p with PCheck _ _ => False | _ => True end) (workers s).

(** The indices passed to the body, those still owed and those lost with
    a goroutine that failed make up [0, N); as long as no call of the body
    has failed nothing is lost, and once a goroutine has returned the
    shared memory has nothing left to hand out. *)
Definition pools_ok (P : Pools) (s : state) : Prop :=
  Forall (pc_ok P) (workers s)
  ∧ ∃ lost,
      body_indices (trace s) ++ concat (owed P <$> workers s)
        ++ pool_m P (mem s) ++ lost ≡ₚ seqZ 0 N
      ∧ (Forall (λ ev, is_failure ev = false) (trace s) ->
           lost = []
           ∧ Forall (λ p, match p with POnce _ => False | _ => True end) (workers s)
           ∧ (pool_m P (mem s) = [] ∨ Forall (λ p, is_done p = false) (workers s))).

Definition For_inv (s : state) : Prop :=
  logs_ok false s ∧ once_ok s ∧ no_check s
  ∧ length (workers s) = Z.to_nat nG.

Definition ForWithContext_inv (ctx_done : bool) (s : state) : Prop :=
  logs_ok true s ∧ once_ok s ∧ cancel_ok ctx_done s
  ∧ length (workers s) = Z.to_nat nG
  ∧ (∀ ev w, ev ∈ trace s -> ev_grID ev = Some w -> (w < length (workers s))%nat).

(** In the log of goroutine [w] every call of the body comes right after
    a check of the context that passed, for the index just claimed. *)
Definition body_checked (w : nat) (h : list (event E)) : Prop :=
  ∀ post i r pre, h = post ++ EvBody w i r :: pre ->
    ∃ pre', pre = EvPass w i :: EvNext w i :: pre'.

(** In the log of goroutine [w] a check that found the context cancelled
    is the last event, right after the claim of the index. *)
Definition stop_last (w : nat) (h : list (event E)) : Prop :=
  ∀ post i pre, h = post ++ EvStop w i :: pre ->
    post = [] ∧ ∃ pre', pre = EvNext w i :: pre'.

(** A call with a context that is cancelled from the start: no goroutine
    gets past the check, and the steps left are bounded. *)
Definition precancelled_ok (s : state) : Prop :=
  ctxErr s = true
  ∧ Forall (λ p, match p with PBody _ _ | POnce _ => False | _ => True end) (workers s).

Definition precancelled_weight (p : pc) : nat :=
  match p with PNext _ => 2 | PCheck _ _ => 1 | _ => 0 end.

End Invocation.

Arguments pc E strategy : clear implicits.
Arguments state E St strategy : clear implicits.
Arguments workers {E St strategy} s.
Arguments mem {E St strategy} s.
Arguments errOnce {E St strategy} s.
Arguments loopErr {E St strategy} s.
Arguments ctxErr {E St strategy} s.
Arguments caller {E St strategy} s.
Arguments trace {E St strategy} s.
Arguments is_done {E strategy} p.
Arguments joined {E St strategy} s.
Arguments set_worker {E St strategy} w p ev s.
Arguments set_mem {E St strategy} m s.
Arguments set_caller {E St strategy} st s.
Arguments set_loopErr {E St strategy} err s.
Arguments emit {E St strategy} ev s.
Arguments cancel {E St strategy} s.
Arguments run {E St strategy L} step sched s.
Arguments terminates {E St strategy L} step s0.
Arguments wlog {E St strategy} w s.
Arguments log_at {E strategy} N ctx w p h.
Arguments gen_ok {strategy} P g : rename.
Arguments pool_g {strategy} P g : rename.
Arguments pool_m {strategy} P m : rename.
Arguments partitions {strategy} nG N P.
Arguments owed {E strategy} P p.
Arguments pc_ok {E strategy} P p.
Arguments weight {E strategy} P p.
Arguments measure {E St strategy} P s.
Arguments logs_ok {E St strategy} N ctx s.
Arguments once_ok {E St strategy} s.
Arguments cancel_ok {E St strategy} ctx_done s.
Arguments no_check {E St strategy} s.
Arguments pools_ok {E St strategy} N P s.
Arguments For_inv {E St strategy} nG N s.
Arguments ForWithContext_inv {E St strategy} nG N ctx_done s.
Arguments precancelled_ok {E St strategy} s.
Arguments precancelled_weight {E strategy} p.
Arguments PNext {E strategy} g.
Arguments PCheck {E strategy} g i.
Arguments PBody {E strategy} g i.
Arguments POnce {E strategy} err.
Arguments PDone {E strategy}.

(** ** The entry points *)

(** The result of a call under one schedule: [wg.Add] panics on a negative
    count, otherwise the call returns from [wg.Wait()] in a state in which
    all goroutines have returned. *)
Inductive outcome {E St : Type} (strategy : Strategy) :=
| Panic
| Return (s : state E St strategy).
Arguments Panic {E St strategy}.
Arguments Return {E St strategy} s.

(** [For e N loopBody st sched] is [None] when [sched] is not a complete
    execution of the call. *)
Definition For {E St} (e : Executor) (N : Z) (loopBody : Z -> Z -> St -> St * option E)
    (st : St) (sched : list nat) : option (@outcome E St (For_strategy e)) :=
  let strategy := For_strategy e in
  if numGoroutines e <? 0 then Some Panic
  else match run (For_step strategy N loopBody) sched
               (For_init strategy (numGoroutines e) N st) with
       | Some s => if joined s then Some (Return s) else None
       | None => None
       end.

Definition ForWithContext {E St} (e : Executor) (ctx_done : bool) (N : Z)
    (loopBody : bool -> Z -> Z -> St -> St * option E)
    (st : St) (sched : list label) : option (@outcome E St (ForWithContext_strategy e)) :=
  let strategy := ForWithContext_strategy e in
  if numGoroutines e <? 0 then Some Panic
  else match run (ForWithContext_step strategy N loopBody) sched
               (ForWithContext_init strategy (numGoroutines e) N ctx_done st) with
       | Some s => if joined s then Some (Return s) else None
       | None => None
       end.

(** What the caller can observe of a state and of the result of a call:
    whether the goroutines are joined, the error slot, the caller's own
    state, and the log. *)
Definition observe_state {E St strategy} (s : state E St strategy)
    : bool * option E * St * list (event E) :=
  (joined s, loopErr s, caller s, trace s).

Definition observe {E St strategy} (r : option (@outcome E St strategy))
    : option (option (option E * St * list (event E))) :=
  match r with
  | Some (Return s) => Some (Some (loopErr s, caller s, trace s))
  | Some Panic => Some None
  | None => None
  end.

(** ** SerialExecutor *)

(** The loop [for i := 0; i < N; i++] with [n] iterations left. *)
Fixpoint serial_loop {E St} (loopBody : Z -> Z -> St -> St * option E)
    (n : nat) (i : Z) (st : St) (tr : list (event E)) : option E * St * list (event E) :=
  match n with
  | O => (None, st, tr)
  | S n =>
      let '(st', r) := loopBody i 0 st in
      match r with
      | Some err => (Some err, st', EvBody 0 i r :: tr)
      | None => serial_loop loopBody n (i + 1) st' (EvBody 0 i r :: tr)
      end
  end.

(** [SerialExecutor().For(N, loopBody)]: the error returned, the caller's
    state and the log of the calls, newest first. *)
Definition SerialExecutor_For {E St} (N : Z) (loopBody : Z -> Z -> St -> St * option E)
    (st : St) : option E * St * list (event E) :=
  serial_loop loopBody (Z.to_nat N) 0 st [].

(** The caller's state after the serial loop has called the body for the
    [k] indices from [i] on. *)
Definition serial_state {E St} (loopBody : Z -> Z -> St -> St * option E)
    (i : Z) (st : St) (k : nat) : St :=
  foldl (λ st' j, (loopBody j 0 st').1) st (seqZ i (Z.of_nat k)).

(** ** Loop bodies and executors used in the statements *)

Definition example_atomic2 : Executor :=
  WithStrategy StrategyFetchNextIndex (WithNumGoroutines 2 (NewExecutor 8)).

Definition example_blocks3 : Executor :=
  WithStrategy StrategyPreassignIndices (WithNumGoroutines 3 (NewExecutor 8)).

Definition example_default2 : Executor := WithNumGoroutines 2 (NewExecutor 8).

Definition example_default4 : Executor := WithNumGoroutines 4 (NewExecutor 8).

(** A body that records its index and never fails. *)
Definition record_index (i grID : Z) (st : list Z) : list Z * option unit :=
  (i :: st, None).

(** A body that records its index and always fails. *)
Definition record_and_fail (i grID : Z) (st : list Z) : list Z * option Z :=
  (i :: st, Some i).

(** A body that fails for index 0 only. *)
Definition fail_at_zero (i grID : Z) (st : unit) : unit * option Z :=
  (st, if i =? 0 then Some i else None).

(** The same for [ForWithContext]. *)
Definition fail_at_zero_ctx (cancelled : bool) (i grID : Z) (st : unit)
    : unit * option Z :=
  (st, if i =? 0 then Some i else None).


(** The body [result[i] = f(i)] over a slice [result]. *)
Definition write_result {E V} (f : Z -> V) (i grID : Z) (result : list V)
    : list V * option E :=
  (<[Z.to_nat i := f i]> result, None).

(** ** The built-in strategies partition the range *)

Definition contiguousPools (N : Z) : Pools newContiguousBlocksStrategy :=
  Build_Pools newContiguousBlocksStrategy
    (λ g : blockCursor, sentinel g = N ∧ (stop g ≤ N ∨ stop g ≤ cur g))
    (λ g : blockCursor, seqZ (cur g) (stop g - cur g))
    (λ _, []).

(** The indices of the block of goroutine [w], in ascending order. *)
Definition block (nG : Z) (w : nat) (N : Z) : list Z :=
  seqZ (block_start nG (Z.of_nat w) N) (block_size nG (Z.of_nat w) N).

(** Under the contiguous blocks strategy, as long as no call of the body
    by goroutine [w] has failed, the indices it has passed to the body
    followed by those it will still claim are its block. *)
Definition blocks_at {E} (nG N : Z) (w : nat) (p : pc E newContiguousBlocksStrategy)
    (h : list (event E)) : Prop :=
  Forall (λ ev, is_failure ev = false) h ->
  match p with
  | PNext g =>
      gen_ok (contiguousPools N) g
      ∧ reverse (body_indices h) ++ seqZ (cur g) (stop g - cur g) = block nG w N
  | PBody g i =>
      gen_ok (contiguousPools N) g
      ∧ reverse (body_indices h) ++ i :: seqZ (cur g) (stop g - cur g) = block nG w N
  | PDone => reverse (body_indices h) = block nG w N
  | _ => False
  end.

Definition atomicPools (N : Z) : Pools newAtomicCounterStrategy :=
  Build_Pools newAtomicCounterStrategy
    (λ _, True)
    (λ _, [])
    (λ counter : Z, seqZ counter (N - counter)).

(** ** Indices of a call of [ForWithContext] *)

(** As [pools_ok], for [ForWithContext]: an index is also lost with a
    goroutine that finds the context cancelled; as long as the context is
    not cancelled and no call of the body has failed nothing is lost. *)
Definition ctx_pools_ok {E St strategy} (N : Z) (P : Pools strategy)
    (s : state E St strategy) : Prop :=
  Forall (pc_ok P) (workers s)
  ∧ ∃ lost,
      body_indices (trace s) ++ concat (owed P <$> workers s)
        ++ pool_m P (mem s) ++ lost ≡ₚ seqZ 0 N
      ∧ (ctxErr s = false -> Forall (λ ev, is_failure ev = false) (trace s) ->
           lost = []
           ∧ Forall (λ p, match p with POnce _ => False | _ => True end) (workers s)
           ∧ (pool_m P (mem s) = [] ∨ Forall (λ p, is_done p = false) (workers s))).

(** The labels of the goroutines' steps: a schedule of such labels is one
    during which the context of the caller is not cancelled. *)
Definition is_Run (l : label) : bool :=
  match l with Run _ => true | Expire => false end.

(** ** A custom strategy *)

(** A strategy as a caller of [WithCustomStrategy] may write it: the
    cyclic distribution, in which goroutine [grID] takes the indices
    [grID], [grID + numGoroutines], [grID + 2 * numGoroutines], ... below
    [N] and then reports [N]. *)
Record cyclicCursor := { next_index : Z; stride : Z; limit : Z }.

Definition cyclicIndexGenerator (numGoroutines grID N : Z) : cyclicCursor :=
  {| next_index := grID; stride := numGoroutines; limit := N |}.

Definition cyclicNext (g : cyclicCursor) (u : unit) : Z * cyclicCursor * unit :=
  if next_index g <? limit g
  then (next_index g,
        {| next_index := next_index g + stride g; stride := stride g; limit := limit g |}, u)
  else (limit g, g, u).

Definition cyclicStrategy : Strategy :=
  {| shared := unit;
     generator := cyclicCursor;
     shared_init := tt;
     IndexGenerator := cyclicIndexGenerator;
     Next := cyclicNext |}.

(** The indices [from], [from + step], ... below [N]. *)
Definition strided (from step N : Z) : list Z :=
  (λ k, from + k * step) <$> seqZ 0 ((N - from + step - 1) / step).

Definition cyclicPools (nG N : Z) : Pools cyclicStrategy :=
  Build_Pools cyclicStrategy
    (λ g : cyclicCursor, stride g = nG ∧ limit g = N)
    (λ g : cyclicCursor, strided (next_index g) (stride g) (limit g))
    (λ _, []).

Definition example_cyclic3 : Executor :=
  WithCustomStrategy cyclicStrategy (WithNumGoroutines 3 (NewExecutor 8)).

(** A body whose result depends on the index only: it fails for the odd
    indices. *)
Definition fail_at_odd (i grID : Z) (st : unit) : unit * option Z :=
  (st, if Z.odd i then Some i else None).

(** The same for [ForWithContext]. *)
Definition record_index_ctx (cancelled : bool) (i grID : Z) (st : list Z)
    : list Z * option unit :=
  (i :: st, None).

(** * Verification *)

(** ** Lists *)

Lemma concat_insert_perm {A B} (f : A -> list B) (l : list A) (i : nat) (x : A) :
  l !! i = Some x ->
  ∃ rest, concat (f <$> l) ≡ₚ f x ++ rest
          ∧ ∀ y, concat (f <$> <[i := y]> l) ≡ₚ f y ++ rest.
Proof.
  revert i. induction l as [|a l IH]; intros [|i] Hi; simplify_eq/=.
  - exists (concat (f <$> l)). split; [done|]. intros y. done.
  - destruct (IH _ Hi) as (rest & H1 & H2).
    exists (f a ++ rest). split.
    + rewrite H1. solve_Permutation.
    + intros y. rewrite H2. solve_Permutation.
Qed.

Lemma sum_list_insert {A} (f : A -> nat) (l : list A) (i : nat) (x y : A) :
  l !! i = Some x ->
  (sum_list (f <$> <[i := y]> l) + f x = sum_list (f <$> l) + f y)%nat.
Proof.
  revert i. induction l as [|a l IH]; intros [|i] Hi; simplify_eq/=.
  - lia.
  - specialize (IH _ Hi). lia.
Qed.

Lemma forallb_is_done_false {A} (d : A -> bool) (l : list A) :
  forallb d l = false -> ∃ i x, l !! i = Some x ∧ d x = false.
Proof.
  induction l as [|a l IH]; simpl; [done|].
  destruct (d a) eqn:Hd; simpl.
  - intros H. destruct (IH H) as (i & x & Hi & Hx). by exists (S i), x.
  - intros _. by exists 0%nat, a.
Qed.

Section Facts.
Context {E St : Type}.
Variable strategy : Strategy.
Variable nG N : Z.
Implicit Types (s : state E St strategy) (p : pc E strategy) (ev : event E).

(** ** Executions *)

Lemma run_invariant {L} (step : L -> state E St strategy -> option (state E St strategy)) (P : state E St strategy -> Prop) :
  (∀ l s s', P s -> step l s = Some s' -> P s') ->
  ∀ sched s0 s, P s0 -> run step sched s0 = Some s -> P s.
Proof.
  intros Hstep sched. induction sched as [|l sched IH]; intros s0 s H0 Hrun; simpl in Hrun.
  - by injection Hrun as <-.
  - destruct (step l s0) as [s1|] eqn:Hs; [|done]. eauto.
Qed.

Lemma run_bounded {L} (step : L -> state E St strategy -> option (state E St strategy)) (P : state E St strategy -> Prop)
    (mu : state E St strategy -> nat) :
  (∀ l s s', P s -> step l s = Some s' -> P s' ∧ (mu s' < mu s)%nat) ->
  ∀ sched s0 s, P s0 -> run step sched s0 = Some s ->
    (length sched + mu s ≤ mu s0)%nat.
Proof.
  intros Hstep sched. induction sched as [|l sched IH]; intros s0 s H0 Hrun; simpl in Hrun.
  - injection Hrun as <-. simpl. lia.
  - destruct (step l s0) as [s1|] eqn:Hs; [|done].
    destruct (Hstep _ _ _ H0 Hs) as [H1 Hlt].
    specialize (IH _ _ H1 Hrun). simpl. lia.
Qed.

(** ** Logs *)

Lemma wlog_step_eq w p ev s :
  ev_grID ev = Some w -> wlog w (set_worker w p ev s) = ev :: wlog w s.
Proof.
  intros Hev. unfold wlog. simpl. rewrite filter_cons_True; [done|].
  unfold by_grID. rewrite Hev. by rewrite Nat.eqb_refl.
Qed.

Lemma wlog_step_ne w w' p ev s :
  ev_grID ev = Some w -> w ≠ w' ->
  wlog w' (set_worker w p ev s) = wlog w' s.
Proof.
  intros Hev Hne. unfold wlog. simpl. rewrite filter_cons_False; [done|].
  unfold by_grID. rewrite Hev. intros Heq. apply Is_true_true, Nat.eqb_eq in Heq. done.
Qed.

Lemma wlog_subseteq w s ev : ev ∈ wlog w s -> ev ∈ trace s.
Proof. unfold wlog. rewrite list_elem_of_filter. tauto. Qed.

Lemma logs_ok_step ctx s s1 w p p' ev :
  logs_ok N ctx s ->
  workers s1 = workers s -> trace s1 = trace s ->
  workers s !! w = Some p -> ev_grID ev = Some w ->
  log_at N ctx w p' (ev :: wlog w s) ->
  logs_ok N ctx (set_worker w p' ev s1).
Proof.
  intros Hinv Hws Htr Hw Hev Hlog w' q Hq. simpl in Hq. rewrite Hws in Hq.
  assert (Hwl : ∀ v, wlog v s1 = wlog v s)
    by (intros v; unfold wlog; by rewrite Htr).
  destruct (decide (w = w')) as [<-|Hne].
  - rewrite list_lookup_insert_eq in Hq by (by eapply lookup_lt_Some).
    injection Hq as <-. rewrite wlog_step_eq, Hwl; done.
  - rewrite list_lookup_insert_ne in Hq by done.
    rewrite wlog_step_ne, Hwl by done. by apply Hinv.
Qed.

Lemma per_worker_step (R : nat -> pc E strategy -> list (event E) -> Prop) s s1 w p p' ev :
  (∀ v q, workers s !! v = Some q -> R v q (wlog v s)) ->
  workers s1 = workers s -> trace s1 = trace s ->
  workers s !! w = Some p -> ev_grID ev = Some w ->
  R w p' (ev :: wlog w s) ->
  ∀ v q, workers (set_worker w p' ev s1) !! v = Some q ->
         R v q (wlog v (set_worker w p' ev s1)).
Proof.
  intros Hinv Hws Htr Hw Hev Hlog w' q Hq. simpl in Hq. rewrite Hws in Hq.
  assert (Hwl : ∀ v, wlog v s1 = wlog v s)
    by (intros v; unfold wlog; by rewrite Htr).
  destruct (decide (w = w')) as [<-|Hne].
  - rewrite list_lookup_insert_eq in Hq by (by eapply lookup_lt_Some).
    injection Hq as <-. rewrite wlog_step_eq, Hwl; done.
  - rewrite list_lookup_insert_ne in Hq by done.
    rewrite wlog_step_ne, Hwl by done. by apply Hinv.
Qed.

Lemma once_ok_quiet s s' ev :
  once_ok s -> is_once ev = false ->
  loopErr s' = loopErr s -> errOnce s' = errOnce s -> trace s' = ev :: trace s ->
  once_ok s'.
Proof.
  unfold once_ok. intros Hinv Hev -> -> ->.
  destruct (loopErr s) as [err|].
  - destruct Hinv as (Ho & v & i & post & pre & Htr & Hpre & Hpost & Hin).
    split; [done|]. exists v, i, (ev :: post), pre. rewrite Htr. split_and!; try done.
    constructor; [|done]. by destruct ev as [| | | |? ? []|].
  - destruct Hinv as [Ho Hall]. split; [done|]. by constructor.
Qed.

Lemma once_ok_lost s s' w err :
  once_ok s -> errOnce s = true ->
  loopErr s' = loopErr s -> errOnce s' = errOnce s ->
  trace s' = EvOnce w err false :: trace s ->
  once_ok s'.
Proof.
  unfold once_ok. intros Hinv Ho -> -> ->.
  destruct (loopErr s) as [err'|].
  - destruct Hinv as (_ & v & i & post & pre & Htr & Hpre & Hpost & Hin).
    split; [done|]. exists v, i, (EvOnce w err false :: post), pre.
    rewrite Htr. split_and!; try done. by constructor.
  - destruct Hinv as [Ho' _]. congruence.
Qed.

Lemma once_ok_won s s' w err i :
  once_ok s -> errOnce s = false ->
  loopErr s' = Some err -> errOnce s' = true ->
  trace s' = EvOnce w err true :: trace s ->
  EvBody w i (Some err) ∈ trace s ->
  once_ok s'.
Proof.
  unfold once_ok. intros Hinv Ho -> -> -> Hin.
  destruct (loopErr s) as [err'|].
  - destruct Hinv as [Ho' _]. congruence.
  - destruct Hinv as [_ Hall]. split; [done|].
    by exists w, i, [], (trace s).
Qed.

Lemma run_snoc {L} (step : L -> state E St strategy -> option (state E St strategy))
    sched l s0 s s' :
  run step sched s0 = Some s -> step l s = Some s' ->
  run step (sched ++ [l]) s0 = Some s'.
Proof.
  revert s0. induction sched as [|l0 sched IH]; intros s0 Hrun Hstep; simpl in *.
  - injection Hrun as ->. by rewrite Hstep.
  - destruct (step l0 s0) as [s1|]; [|done]. by apply IH.
Qed.

(** A call that terminates has a complete execution. *)
Lemma terminates_complete {L}
    (step : L -> state E St strategy -> option (state E St strategy)) s0 :
  terminates step s0 -> ∃ sched s, run step sched s0 = Some s ∧ joined s = true.
Proof.
  intros [bound Hb].
  assert (∀ k sched s, run step sched s0 = Some s -> (bound - length sched ≤ k)%nat ->
            ∃ sched' s', run step sched' s0 = Some s' ∧ joined s' = true) as Hk.
  { induction k as [|k IH]; intros sched s Hrun Hlen;
      destruct (joined s) eqn:Hj; try by exists sched, s.
    - destruct (Hb _ _ Hrun) as [Hle Hpr]. destruct (Hpr Hj) as [l [s' Hs']].
      pose proof (run_snoc _ _ _ _ _ _ Hrun Hs') as Hrun'.
      destruct (Hb _ _ Hrun') as [Hle' _]. rewrite length_app in Hle'. simpl in Hle'. lia.
    - destruct (Hb _ _ Hrun) as [Hle Hpr]. destruct (Hpr Hj) as [l [s' Hs']].
      pose proof (run_snoc _ _ _ _ _ _ Hrun Hs') as Hrun'.
      apply (IH _ _ Hrun'). rewrite length_app. simpl. lia. }
  apply (Hk bound [] s0); [done|lia].
Qed.

Lemma joined_done s w p : joined s = true -> workers s !! w = Some p -> p = PDone.
Proof.
  unfold joined. intros Hj Hw. apply Is_true_true, forallb_True in Hj.
  pose proof (Forall_lookup_1 _ _ _ _ Hj Hw) as Hd. by destruct p.
Qed.

Lemma iterations_quiet ctx w h :
  iterations N ctx w h ->
  Forall (λ ev, is_failure ev = false ∧ is_once ev = false ∧ is_stop ev = false) h.
Proof.
  induction 1 as [|i h Hi Hit IH]; [done|].
  destruct ctx; simpl; repeat (constructor; [done|]); done.
Qed.

Lemma elem_of_wlog w s ev : ev ∈ trace s -> ev_grID ev = Some w -> ev ∈ wlog w s.
Proof.
  intros Hin Hev. unfold wlog. apply list_elem_of_filter. split; [|done].
  unfold by_grID. rewrite Hev. by rewrite Nat.eqb_refl.
Qed.

Lemma elem_of_body_calls (tr : list (event E)) w i r :
  EvBody w i r ∈ tr -> (i, w) ∈ body_calls tr.
Proof.
  induction tr as [|ev tr IH]; intros Hin; [by apply not_elem_of_nil in Hin|].
  apply elem_of_cons in Hin as [<-|Hin]; [left|].
  destruct ev; simpl; try right; auto.
Qed.

(** In a state in which all goroutines have returned, a call of the body
    that failed was followed by a call of [errOnce.Do]. *)
Lemma joined_failures_offered ctx s :
  logs_ok N ctx s -> joined s = true ->
  (∀ ev w, ev ∈ trace s -> ev_grID ev = Some w -> (w < length (workers s))%nat) ->
  Forall (λ ev, is_once ev = false) (trace s) ->
  Forall (λ ev, is_failure ev = false) (trace s).
Proof.
  intros Hlog Hj Hid Hno. apply Forall_forall. intros ev Hin.
  destruct (is_failure ev) eqn:Hf; [exfalso|done].
  destruct ev as [| | |w i [err|]| |]; try done.
  pose proof (Hid _ w Hin eq_refl) as Hw.
  apply lookup_lt_is_Some in Hw as [p Hp].
  pose proof (joined_done _ _ _ Hj Hp) as ->.
  pose proof (Hlog _ _ Hp) as Hl. simpl in Hl.
  pose proof (elem_of_wlog w s _ Hin eq_refl) as Hinw.
  assert (∀ h, iterations N ctx w h -> EvBody w i (Some err) ∉ h) as Hnot.
  { intros h Hit Hh. apply iterations_quiet in Hit.
    by destruct (proj1 (Forall_forall _ _) Hit _ Hh) as (? & ? & ?). }
  inversion Hl as [j h Hj' Hit Heq|j h Hc Hj' Hit Heq|err' ran j h Hj' Hit Heq];
    rewrite <- Heq in Hinw.
  - apply elem_of_cons in Hinw as [?|Hinw]; [done|]. by apply (Hnot h).
  - apply elem_of_cons in Hinw as [?|Hinw]; [done|].
    apply elem_of_cons in Hinw as [?|Hinw]; [done|]. by apply (Hnot h).
  - assert (EvOnce w err' ran ∈ trace s) as Ho
      by (apply (wlog_subseteq w); rewrite <- Heq; left).
    by pose proof (proj1 (Forall_forall _ _) Hno _ Ho).
Qed.

(** ** For: invariants of every execution *)

Section For_facts.
Variable loopBody : Z -> Z -> St -> St * option E.

Lemma For_init_inv (st : St) : For_inv nG N (For_init (E:=E) strategy nG N st).
Proof.
  unfold For_inv, For_init, logs_ok, once_ok, no_check, spawn, wlog. simpl.
  split_and!.
  - intros w p Hw. apply list_lookup_fmap_Some in Hw as (k & -> & _).
    simpl. constructor.
  - done.
  - done.
  - apply Forall_fmap, Forall_forall. done.
  - by rewrite length_fmap, length_seq.
Qed.

Lemma For_step_inv w s s' :
  For_step strategy N loopBody w s = Some s' -> For_inv nG N s -> For_inv nG N s'.
Proof.
  intros Hstep (Hlog & Honce & Hnc & Hlen). unfold For_step in Hstep.
  destruct (workers s !! w) as [[g|g i|g i|err|]|] eqn:Hw; try done.
  - destruct (Next strategy g (mem s)) as [[i g'] m'] eqn:Hnext.
    injection Hstep as <-. pose proof (Hlog _ _ Hw) as Hl. simpl in Hl.
    split_and!.
    + eapply logs_ok_step; eauto. destruct (Z.ltb_spec i N); simpl.
      * split; [done|]. by exists (wlog w s).
      * by constructor.
    + by apply (once_ok_quiet s _ (EvNext w i)).
    + apply Forall_insert; [done|]. by destruct (i <? N).
    + simpl. by rewrite length_insert.
  - destruct (loopBody i (Z.of_nat w) (caller s)) as [st' r] eqn:Hbody.
    injection Hstep as <-. pose proof (Hlog _ _ Hw) as Hl. simpl in Hl.
    destruct Hl as (Hi & h' & Hh & Hit).
    split_and!.
    + eapply logs_ok_step; eauto. rewrite Hh. destruct r as [err|]; simpl.
      * by exists i, h'.
      * by apply (iterations_cons N false w i h').
    + by apply (once_ok_quiet s _ (EvBody w i r)).
    + apply Forall_insert; [done|]. by destruct r.
    + simpl. by rewrite length_insert.
  - pose proof (Hlog _ _ Hw) as Hl. simpl in Hl.
    destruct Hl as (i & h' & Hi & Hh & Hit).
    destruct (errOnce s) eqn:Ho; injection Hstep as <-.
    + split_and!.
      * eapply logs_ok_step; eauto. rewrite Hh.
        by apply (stopped_failed N false w err false i h').
      * by apply (once_ok_lost s _ w err).
      * by apply Forall_insert.
      * simpl. by rewrite length_insert.
    + split_and!.
      * eapply logs_ok_step; eauto. rewrite Hh.
        by apply (stopped_failed N false w err true i h').
      * apply (once_ok_won s _ w err i); try done.
        apply (wlog_subseteq w). rewrite Hh. left.
      * by apply Forall_insert.
      * simpl. by rewrite length_insert.
Qed.

Lemma For_run_inv st sched s :
  run (For_step strategy N loopBody) sched (For_init strategy nG N st) = Some s ->
  For_inv nG N s.
Proof.
  apply (run_invariant _ (For_inv nG N)); [|apply For_init_inv].
  intros l s1 s2 H1 H2. by eapply For_step_inv.
Qed.

Lemma For_step_trace w s s' :
  For_step strategy N loopBody w s = Some s' ->
  ∃ ev, trace s' = ev :: trace s ∧ ev_grID ev = Some w
        ∧ (w < length (workers s))%nat
        ∧ length (workers s') = length (workers s)
        ∧ match ev with
          | EvBody _ i r => loopBody i (Z.of_nat w) (caller s) = (caller s', r)
          | _ => caller s' = caller s
          end.
Proof.
  intros Hstep. unfold For_step in Hstep.
  destruct (workers s !! w) as [p|] eqn:Hw; [|done].
  pose proof (lookup_lt_Some _ _ _ Hw) as Hlt.
  destruct p as [g|g i|g i|err|]; try done.
  - destruct (Next strategy g (mem s)) as [[i g'] m'] eqn:Hnext.
    injection Hstep as <-. exists (EvNext w i). simpl. by rewrite length_insert.
  - destruct (loopBody i (Z.of_nat w) (caller s)) as [st' r] eqn:Hbody.
    injection Hstep as <-. exists (EvBody w i r). simpl. by rewrite length_insert.
  - destruct (errOnce s); injection Hstep as <-;
      eexists (EvOnce w err _); simpl; by rewrite length_insert.
Qed.

Lemma For_run_grIDs st sched s :
  run (For_step strategy N loopBody) sched (For_init strategy nG N st) = Some s ->
  ∀ ev w, ev ∈ trace s -> ev_grID ev = Some w -> (w < length (workers s))%nat.
Proof.
  apply (run_invariant _ (λ s, ∀ ev w, ev ∈ trace s -> ev_grID ev = Some w ->
                                 (w < length (workers s))%nat)).
  - intros l s1 s2 H1 Hstep ev w Hin Hev.
    destruct (For_step_trace _ _ _ Hstep) as (ev' & Htr & Hev' & Hlt & Hlen & _).
    rewrite Hlen. rewrite Htr in Hin. apply elem_of_cons in Hin as [->|Hin]; [|eauto].
    congruence.
  - intros ev w Hin. by apply not_elem_of_nil in Hin.
Qed.

Lemma For_run_no_failure st sched s :
  (∀ i grID st', (loopBody i grID st').2 = None) ->
  run (For_step strategy N loopBody) sched (For_init strategy nG N st) = Some s ->
  Forall (λ ev, is_failure ev = false) (trace s).
Proof.
  intros Hbody.
  apply (run_invariant _ (λ s, Forall (λ ev, is_failure ev = false) (trace s))); [|done].
  intros l s1 s2 H1 Hstep.
  destruct (For_step_trace _ _ _ Hstep) as (ev' & Htr & _ & _ & _ & Hev).
  rewrite Htr. constructor; [|done].
  destruct ev' as [| | |w i [err|]| |]; try done.
  specialize (Hbody i (Z.of_nat l) (caller s1)). rewrite Hev in Hbody. done.
Qed.

(** *** Partition and termination *)

Section For_partition.
Variable P : Pools strategy.
Hypothesis HP : partitions nG N P.

Lemma For_init_pools (st : St) : pools_ok N P (For_init (E:=E) strategy nG N st).
Proof.
  destruct HP as (Hspawn & Hinit & _). unfold pools_ok, For_init, spawn. simpl. split.
  - apply Forall_fmap, Forall_forall. intros w Hw. simpl.
    apply Hspawn. apply elem_of_seq in Hw. lia.
  - exists []. split.
    + rewrite <- list_fmap_compose.
      unfold body_indices. simpl. rewrite app_nil_r. exact Hinit.
    + intros _. split_and!; [done| |right]; by apply Forall_fmap, Forall_forall.
Qed.

Lemma For_step_pools w s s' :
  For_step strategy N loopBody w s = Some s' -> pools_ok N P s ->
  pools_ok N P s' ∧ (measure P s' < measure P s)%nat.
Proof.
  destruct HP as (_ & _ & Hnext_ok).
  intros Hstep (Hok & lost & Hperm & Hlost). unfold For_step in Hstep.
  destruct (workers s !! w) as [[g|g i|g i|err|]|] eqn:Hw; try done.
  - destruct (Next strategy g (mem s)) as [[i g'] m'] eqn:Hnext.
    injection Hstep as <-.
    pose proof (Forall_lookup_1 _ _ _ _ Hok Hw) as Hg. simpl in Hg.
    destruct (Hnext_ok _ _ _ _ _ Hg Hnext) as [Hg' Hrel].
    destruct (concat_insert_perm (owed P) _ _ _ Hw) as (rest & H1 & H2).
    pose proof (sum_list_insert (weight P) _ _ _
                  (if i <? N then PBody g' i else PDone) Hw) as Hsum.
    unfold pools_ok, measure, body_indices in *. simpl in *.
    destruct (i <? N); simpl in *.
    + destruct Hrel as [Hrel Hmono]. split_and!.
      * by apply Forall_insert.
      * exists lost. split.
        -- rewrite H2. rewrite <- Hperm, H1. simpl.
           transitivity ((body_calls (trace s)).*1 ++ rest ++ lost
                           ++ (i :: pool_g P g' ++ pool_m P m')); [solve_Permutation|].
           rewrite <- Hrel. solve_Permutation.
        -- intros H. inversion H as [|? ? _ H']. destruct (Hlost H') as (Hl & Hno & Hm).
           split_and!; [done|by apply Forall_insert|].
           destruct Hm as [Hm|Hm]; [left; by apply Hmono|right; by apply Forall_insert].
      * apply Permutation_length in Hrel. simpl in Hrel.
        rewrite !length_app in Hrel. lia.
    + destruct Hrel as (Hnil & Hm & Hm'). rewrite Hm' in *. rewrite Hm in *.
      rewrite Hnil in *. simpl in *. split_and!.
      * by apply Forall_insert.
      * exists lost. split.
        -- rewrite H2. rewrite <- Hperm, H1. done.
        -- intros H. inversion H as [|? ? _ H']. destruct (Hlost H') as (Hl & Hno & _).
           split_and!; [done|by apply Forall_insert|by left].
      * lia.
  - destruct (loopBody i (Z.of_nat w) (caller s)) as [st' r] eqn:Hbody.
    injection Hstep as <-.
    pose proof (Forall_lookup_1 _ _ _ _ Hok Hw) as Hg. simpl in Hg.
    destruct (concat_insert_perm (owed P) _ _ _ Hw) as (rest & H1 & H2).
    pose proof (sum_list_insert (weight P) _ _ _
                  (match r with Some err => POnce err | None => PNext g end) Hw) as Hsum.
    unfold pools_ok, measure, body_indices in *. simpl in *.
    destruct r as [err|]; simpl in *.
    + split_and!.
      * by apply Forall_insert.
      * exists (pool_g P g ++ lost). split; [|by intros H; inversion H].
        rewrite H2. rewrite <- Hperm, H1. simpl. solve_Permutation.
      * lia.
    + split_and!.
      * by apply Forall_insert.
      * exists lost. split.
        -- rewrite H2. rewrite <- Hperm, H1. simpl. solve_Permutation.
        -- intros H. inversion H as [|? ? _ H']. destruct (Hlost H') as (Hl & Hno & Hm).
           split_and!; [done|by apply Forall_insert|].
           destruct Hm as [Hm|Hm]; [by left|right; by apply Forall_insert].
      * lia.
  - destruct (concat_insert_perm (owed P) _ _ _ Hw) as (rest & H1 & H2).
    pose proof (sum_list_insert (weight P) _ _ _ PDone Hw) as Hsum.
    assert (Forall (λ ev : event E, is_failure ev = false) (trace s) -> False) as Hfail.
    { intros H. destruct (Hlost H) as (_ & Hno & _).
      by pose proof (Forall_lookup_1 _ _ _ _ Hno Hw). }
    unfold pools_ok, measure, body_indices in *.
    destruct (errOnce s) eqn:Ho; injection Hstep as <-; simpl in *.
    + split_and!.
      * by apply Forall_insert.
      * exists lost. split; [|by intros H; inversion H].
        rewrite H2. rewrite <- Hperm, H1. done.
      * lia.
    + split_and!.
      * by apply Forall_insert.
      * exists lost. split; [|by intros H; inversion H].
        rewrite H2. rewrite <- Hperm, H1. done.
      * lia.
Qed.

Lemma For_run_pools st sched s :
  run (For_step strategy N loopBody) sched (For_init strategy nG N st) = Some s ->
  pools_ok N P s.
Proof.
  apply (run_invariant _ (pools_ok N P)); [|apply For_init_pools].
  intros l s1 s2 H1 H2. by eapply For_step_pools.
Qed.

Lemma For_progress s :
  no_check s -> joined s = false -> ∃ w, is_Some (For_step strategy N loopBody w s).
Proof.
  intros Hnc Hj. apply forallb_is_done_false in Hj as (w & p & Hw & Hp).
  exists w. unfold For_step. rewrite Hw.
  pose proof (Forall_lookup_1 _ _ _ _ Hnc Hw) as Hc.
  destruct p as [g|g i|g i|err|]; try done.
  - by destruct (Next strategy g (mem s)) as [[i g'] m'].
  - by destruct (loopBody i (Z.of_nat w) (caller s)) as [st' r].
  - by destruct (errOnce s).
Qed.

Lemma For_terminates st :
  terminates (For_step strategy N loopBody) (For_init strategy nG N st).
Proof.
  exists (measure P (For_init (E:=E) strategy nG N st)). intros sched s Hrun. split.
  - pose proof (run_bounded _ (pools_ok N P) (measure P)
                  (λ l s1 s2 H1 H2, For_step_pools l s1 s2 H2 H1)
                  _ _ _ (For_init_pools st) Hrun). lia.
  - intros Hj. apply For_progress; [|done]. by apply For_run_inv in Hrun as (_ & _ & ? & _).
Qed.

End For_partition.

End For_facts.

End Facts.

(** ** The built-in strategies partition [0, N) *)

Lemma concat_nils {A B} (f : A -> list B) (l : list A) :
  (∀ x, x ∈ l -> f x = []) -> concat (f <$> l) = [].
Proof.
  induction l as [|a l IH]; intros H; simpl; [done|].
  rewrite (H a) by left. apply IH. intros x Hx. apply H. by right.
Qed.

Lemma block_start_succ nG w N :
  block_start nG (w + 1) N = block_start nG w N + block_size nG w N.
Proof.
  unfold block_start, block_size. destruct (Z.ltb_spec w (N mod nG)); lia.
Qed.

Lemma block_start_zero nG N : 0 < nG -> block_start nG 0 N = 0.
Proof.
  intros H. unfold block_start. pose proof (Z.mod_pos_bound N nG H). lia.
Qed.

Lemma block_start_last nG N : 0 < nG -> block_start nG nG N = N.
Proof.
  intros H. unfold block_start. pose proof (Z.mod_pos_bound N nG H).
  pose proof (Z.div_mod N nG). lia.
Qed.

Lemma block_size_nonneg nG w N : 0 < nG -> 0 ≤ N -> 0 ≤ block_size nG w N.
Proof.
  intros H HN. unfold block_size. pose proof (Z.div_pos N nG HN H).
  destruct (w <? N mod nG); lia.
Qed.

Lemma block_size_nonpos nG w N : 0 < nG -> N < 0 -> block_size nG w N ≤ 0.
Proof.
  intros H HN. unfold block_size.
  assert (N / nG < 0) by (apply Z.div_lt_upper_bound; lia).
  destruct (w <? N mod nG); lia.
Qed.

Lemma block_start_mono nG w N :
  0 < nG -> 0 ≤ N -> 0 ≤ w < nG -> block_start nG (w + 1) N ≤ N.
Proof.
  intros H HN Hw. rewrite <- (block_start_last nG N H) at 2.
  unfold block_start. pose proof (Z.div_pos N nG HN H).
  pose proof (Z.mod_pos_bound N nG H). nia.
Qed.

Lemma blocks_concat nG N (k : nat) :
  0 < nG -> 0 ≤ N ->
  concat ((λ w : nat, seqZ (block_start nG (Z.of_nat w) N) (block_size nG (Z.of_nat w) N))
            <$> seq 0 k)
  = seqZ 0 (block_start nG (Z.of_nat k) N).
Proof.
  intros H HN. induction k as [|k IH].
  - simpl. by rewrite block_start_zero.
  - rewrite seq_S, fmap_app, concat_app, IH. simpl. rewrite app_nil_r.
    replace (Z.of_nat (S k)) with (Z.of_nat k + 1) by lia.
    rewrite block_start_succ.
    assert (0 ≤ block_start nG (Z.of_nat k) N).
    { unfold block_start. pose proof (Z.div_pos N nG HN H).
      pose proof (Z.mod_pos_bound N nG H). nia. }
    rewrite seqZ_app by (try done; by apply block_size_nonneg). done.
Qed.

Lemma atomic_partitions nG N : partitions nG N (atomicPools N).
Proof.
  split_and!.
  - done.
  - simpl. rewrite concat_nils by done. simpl. by rewrite Z.sub_0_r.
  - intros g m i g' m' _ Hnext. simpl in *. unfold atomicNext in Hnext.
    injection Hnext as <- <- <-. split; [done|].
    destruct (Z.ltb_spec m N).
    + split.
      * rewrite (seqZ_cons m) by lia.
        by replace (Z.pred (N - m)) with (N - (m + 1)) by lia.
      * intros Hnil. apply (f_equal length) in Hnil.
        rewrite length_seqZ in Hnil. simpl in Hnil. lia.
    + by rewrite !seqZ_nil by lia.
Qed.

Lemma contiguous_partitions nG N : 1 ≤ nG -> partitions nG N (contiguousPools N).
Proof.
  intros HnG. split_and!.
  - intros w Hw. simpl. split; [done|].
    destruct (Z.le_gt_cases 0 N) as [HN|HN].
    + left. rewrite <- block_start_succ. apply block_start_mono; lia.
    + right. pose proof (block_size_nonpos nG (Z.of_nat w) N). lia.
  - simpl. rewrite app_nil_r. destruct (Z.le_gt_cases 0 N) as [HN|HN].
    + erewrite list_fmap_ext; [rewrite (blocks_concat nG N) by lia|].
      * rewrite Z2Nat.id by lia. by rewrite block_start_last by lia.
      * intros _ w _. simpl. f_equal. lia.
    + rewrite (seqZ_nil 0 N) by lia. rewrite concat_nils; [done|].
      intros w _. simpl. apply seqZ_nil.
      pose proof (block_size_nonpos nG (Z.of_nat w) N). lia.
  - intros g m i g' m' [Hs Hb] Hnext. simpl in *. unfold contiguousNext in Hnext.
    destruct (Z.ltb_spec (cur g) (stop g)); injection Hnext as <- <- <-; simpl.
    + split; [split; [done|lia]|].
      destruct (Z.ltb_spec (cur g) N); [|lia]. split; [|done].
      rewrite !app_nil_r, (seqZ_cons (cur g)) by lia.
      by replace (Z.pred (stop g - cur g)) with (stop g - (cur g + 1)) by lia.
    + split; [done|]. rewrite Hs, Z.ltb_irrefl. split; [|done].
      apply seqZ_nil. lia.
Qed.

Example contiguous_blocks_10_3 :
  (λ w, block_size 3 w 10) <$> [0; 1; 2] = [4; 3; 3]
  ∧ (λ w, block_start 3 w 10) <$> [0; 1; 2] = [0; 4; 7].
Proof. done. Qed.

(** ** Calls of [For] *)

Lemma For_outcome {E St} (e : Executor) N (loopBody : Z -> Z -> St -> St * option E)
    st sched r :
  For e N loopBody st sched = Some r ->
  (numGoroutines e < 0 ∧ r = Panic)
  ∨ (0 ≤ numGoroutines e
     ∧ ∃ s, r = Return s ∧ joined s = true
            ∧ run (For_step (For_strategy e) N loopBody) sched
                (For_init (For_strategy e) (numGoroutines e) N st) = Some s).
Proof.
  unfold For. destruct (Z.ltb_spec (numGoroutines e) 0) as [Hneg|Hpos].
  - intros [= <-]. by left.
  - destruct (run _ sched _) as [s|] eqn:Hrun; [|done].
    destruct (joined s) eqn:Hj; [|done]. intros [= <-]. right. eauto.
Qed.

(** The executors with a built-in strategy: the strategy of the call
    partitions the range. *)
Lemma builtin_partitions (t : StrategyType) (d nG N : Z) :
  1 ≤ nG ->
  ∃ P : Pools (For_strategy (WithStrategy t (WithNumGoroutines nG (NewExecutor d)))),
    partitions nG N P.
Proof.
  intros HnG. destruct t; simpl.
  - exists (contiguousPools N). by apply contiguous_partitions.
  - exists (contiguousPools N). by apply contiguous_partitions.
  - exists (atomicPools N). by apply atomic_partitions.
  - exists (contiguousPools N). by apply contiguous_partitions.
Qed.

Lemma joined_owed {E St strategy} (P : Pools strategy) (s : state E St strategy) :
  joined s = true -> concat (owed P <$> workers s) = [].
Proof.
  intros Hj. apply concat_nils. intros p Hp.
  apply list_elem_of_lookup in Hp as [w Hw]. by rewrite (joined_done _ _ _ _ Hj Hw).
Qed.

Lemma body_calls_grIDs {E} (tr : list (event E)) (n : nat) :
  (∀ ev w, ev ∈ tr -> ev_grID ev = Some w -> (w < n)%nat) ->
  Forall (λ c, (c.2 < n)%nat) (body_calls tr).
Proof.
  induction tr as [|ev tr IH]; intros H; [done|].
  assert (Forall (λ c, (c.2 < n)%nat) (body_calls tr)) as IH'
    by (apply IH; intros ev' w Hin; apply H; by right).
  destruct ev as [| | |w i r| |]; simpl; try done.
  constructor; [|done]. simpl. apply (H (EvBody w i r)); [left|done].
Qed.

(** The caller's state after calls of the body [result[i] = f(i)]. *)
Lemma serial_loop_write {E V} (f : Z -> V) (n : nat) (i : Z) (result : list V)
    (tr : list (event E)) :
  serial_loop (write_result f) n i result tr
  = (None,
     foldr (λ j acc, <[Z.to_nat j := f j]> acc) result (reverse (seqZ i (Z.of_nat n))),
     reverse ((λ j, EvBody 0 j None) <$> seqZ i (Z.of_nat n)) ++ tr).
Proof.
  revert i result tr. induction n as [|n IH]; intros i result tr; [done|].
  cbn [serial_loop write_result]. rewrite IH.
  replace (Z.of_nat (S n)) with (Z.succ (Z.of_nat n)) by lia.
  rewrite (seqZ_cons i) by lia. rewrite Z.pred_succ.
  replace (Z.succ i) with (i + 1) by lia.
  rewrite fmap_cons, !reverse_cons, foldr_app, <- !app_assoc. done.
Qed.

Lemma For_run_write {E V} strategy nG N (f : Z -> V) (result : list V) sched
    (s : state E (list V) strategy) :
  run (For_step strategy N (write_result f)) sched (For_init strategy nG N result) = Some s ->
  caller s = foldr (λ j acc, <[Z.to_nat j := f j]> acc) result (body_indices (trace s)).
Proof.
  apply (run_invariant _ _
    (λ s, caller s = foldr (λ j acc, <[Z.to_nat j := f j]> acc) result
                       (body_indices (trace s)))); [|done].
  intros l s1 s2 H1 Hstep.
  eapply For_step_trace in Hstep as (ev & Htr & _ & _ & _ & Hev).
  rewrite Htr. unfold body_indices in *.
  destruct ev as [| | |w i r| |]; simpl in *; try congruence.
  unfold write_result in Hev. injection Hev as <- <-. by rewrite H1.
Qed.

(** In a complete execution without a failed call, the indices passed to
    the body are a permutation of [0, N). *)
Lemma For_complete_indices {E St} strategy nG N (P : Pools strategy)
    (loopBody : Z -> Z -> St -> St * option E) st sched (s : state E St strategy) :
  partitions nG N P -> 1 ≤ nG ->
  run (For_step strategy N loopBody) sched (For_init strategy nG N st) = Some s ->
  joined s = true ->
  Forall (λ ev, is_failure ev = false) (trace s) ->
  body_indices (trace s) ≡ₚ seqZ 0 N.
Proof.
  intros HP HnG Hrun Hj Hnf.
  pose proof (For_run_pools _ _ _ _ P HP _ _ _ Hrun) as (_ & lost & Hperm & Hlost).
  destruct (Hlost Hnf) as (-> & _ & Hm).
  rewrite (joined_owed P s Hj) in Hperm. simpl in Hperm.
  destruct Hm as [Hm|Hnd].
  - rewrite Hm in Hperm. simpl in Hperm. by rewrite app_nil_r in Hperm.
  - exfalso. pose proof (For_run_inv _ _ _ _ _ _ _ Hrun) as (_ & _ & _ & Hlen).
    destruct (lookup_lt_is_Some_2 (workers s) 0%nat) as [p Hp]; [lia|].
    pose proof (Forall_lookup_1 _ _ _ _ Hnd Hp) as Hd.
    rewrite (joined_done _ _ _ _ Hj Hp) in Hd. done.
Qed.

(** C1: for every [N >= 0] and every worker count [>= 1], with a loop body
    that never returns an error, a call of [For] under either built-in
    strategy returns, and in every execution the body is invoked exactly
    once for each index of [0, N) and for no other index, by goroutines
    with ids below the worker count. *)
Theorem For_visits_each_index_once {E St} (t : StrategyType) (d nG N : Z)
    (loopBody : Z -> Z -> St -> St * option E) (st : St) :
  0 ≤ N -> 1 ≤ nG ->
  (∀ i grID st', (loopBody i grID st').2 = None) ->
  let e := WithStrategy t (WithNumGoroutines nG (NewExecutor d)) in
  terminates (For_step (For_strategy e) N loopBody) (For_init (For_strategy e) nG N st)
  ∧ ∀ sched r, For e N loopBody st sched = Some r ->
      ∃ s, r = Return s
           ∧ body_indices (trace s) ≡ₚ seqZ 0 N
           ∧ Forall (λ c, (c.2 < Z.to_nat nG)%nat) (body_calls (trace s))
           ∧ loopErr s = None.
Proof.
  intros HN HnG Hbody e. subst e. destruct (builtin_partitions t d nG N HnG) as [P HP]. split.
  - by apply (For_terminates _ _ _ _ P).
  - intros sched r Hfor.
    apply For_outcome in Hfor as [[Hneg _]|(_ & s & -> & Hj & Hrun)];
      [simpl in Hneg; lia|].
    change (numGoroutines _) with nG in Hrun.
    pose proof (For_run_no_failure _ _ _ _ _ _ _ Hbody Hrun) as Hnf.
    pose proof (For_run_inv _ _ _ _ _ _ _ Hrun) as (_ & Ho & _ & Hlen).
    exists s. split_and!; [done| | |].
    + by eapply For_complete_indices.
    + apply body_calls_grIDs. rewrite <- Hlen. by eapply For_run_grIDs.
    + unfold once_ok in Ho. destruct (loopErr s) as [err|]; [|done].
      destruct Ho as (_ & w & i & post & pre & Htr & _ & _ & Hin).
      assert (EvBody w i (Some err) ∈ trace s) as Hin'
        by (rewrite Htr; apply elem_of_app; right; by right).
      by pose proof (proj1 (Forall_forall _ _) Hnf _ Hin').
Qed.

Lemma For_visits_each_index_once_witness :
  (0 ≤ 3 ∧ 1 ≤ 2 ∧ ∀ i grID st', (record_index i grID st').2 = None)
  ∧ terminates (For_step (For_strategy example_atomic2) 3 record_index)
      (For_init (For_strategy example_atomic2) 2 3 [])
  ∧ ∀ sched r, For example_atomic2 3 record_index [] sched = Some r ->
      ∃ s, r = Return s
           ∧ body_indices (trace s) ≡ₚ seqZ 0 3
           ∧ Forall (λ c, (c.2 < Z.to_nat 2)%nat) (body_calls (trace s))
           ∧ loopErr s = None.
Proof.
  split.
  - split_and!; [lia|lia|reflexivity].
  - apply (For_visits_each_index_once StrategyFetchNextIndex 8 2 3 record_index []);
      [lia|lia|reflexivity].
Defined.

(** C7: for every [N <= 0], every worker count [>= 1] and either built-in
    strategy, a call of [For] returns, never invokes the loop body and
    returns nil; so does [SerialExecutor]. *)
Theorem For_degenerate_N {E St} (t : StrategyType) (d nG N : Z)
    (loopBody : Z -> Z -> St -> St * option E) (st : St) :
  N ≤ 0 -> 1 ≤ nG ->
  let e := WithStrategy t (WithNumGoroutines nG (NewExecutor d)) in
  terminates (For_step (For_strategy e) N loopBody) (For_init (For_strategy e) nG N st)
  ∧ (∀ sched r, For e N loopBody st sched = Some r ->
       ∃ s, r = Return s ∧ body_calls (trace s) = [] ∧ loopErr s = None)
  ∧ SerialExecutor_For N loopBody st = (None, st, []).
Proof.
  intros HN HnG e. subst e. destruct (builtin_partitions t d nG N HnG) as [P HP]. split_and!.
  - by apply (For_terminates _ _ _ _ P).
  - intros sched r Hfor.
    apply For_outcome in Hfor as [[Hneg _]|(_ & s & -> & Hj & Hrun)];
      [simpl in Hneg; lia|].
    change (numGoroutines _) with nG in Hrun.
    pose proof (For_run_pools _ _ _ _ P HP _ _ _ Hrun) as (_ & lost & Hperm & _).
    pose proof (For_run_inv _ _ _ _ _ _ _ Hrun) as (_ & Ho & _ & _).
    rewrite (seqZ_nil 0 N) in Hperm by lia.
    apply Permutation_nil_r, app_eq_nil in Hperm as [Hnil _].
    apply fmap_nil_inv in Hnil.
    exists s. split_and!; [done..|].
    unfold once_ok in Ho. destruct (loopErr s) as [err|]; [|done].
    destruct Ho as (_ & w & i & post & pre & Htr & _ & _ & Hin).
    assert (EvBody w i (Some err) ∈ trace s) as Hin'
      by (rewrite Htr; apply elem_of_app; right; by right).
    apply elem_of_body_calls in Hin'.
    assert ((i, w) ∈ ([] : list (Z * nat))) as Hin'' by (by rewrite <- Hnil).
    by apply not_elem_of_nil in Hin''.
  - unfold SerialExecutor_For. by rewrite Z2Nat.nonpos.
Qed.

Lemma For_degenerate_N_witness :
  (0 ≤ 0 ∧ 1 ≤ 3)
  ∧ terminates (For_step (For_strategy example_blocks3) 0 record_and_fail)
      (For_init (For_strategy example_blocks3) 3 0 [])
  ∧ (∀ sched r, For example_blocks3 0 record_and_fail [] sched = Some r ->
       ∃ s, r = Return s ∧ body_calls (trace s) = [] ∧ loopErr s = None)
  ∧ SerialExecutor_For 0 record_and_fail [] = (None, [], []).
Proof.
  split; [lia|].
  apply (For_degenerate_N StrategyPreassignIndices 8 3 0 record_and_fail []); lia.
Defined.

(** C6: for the body [result[i] = f(i)] over a slice of length at least
    [N], a call of [For] under either built-in strategy returns, and every
    execution leaves the slice as [SerialExecutor] leaves it, both
    returning nil. *)
Theorem For_agrees_with_SerialExecutor {E V} (t : StrategyType) (d nG N : Z)
    (f : Z -> V) (result : list V) :
  1 ≤ nG -> N ≤ Z.of_nat (length result) ->
  let e := WithStrategy t (WithNumGoroutines nG (NewExecutor d)) in
  terminates (For_step (E:=E) (For_strategy e) N (write_result f))
    (For_init (For_strategy e) nG N result)
  ∧ ∀ sched r, For (E:=E) e N (write_result f) result sched = Some r ->
      ∃ s, r = Return s
           ∧ (loopErr s, caller s) = (SerialExecutor_For (E:=E) N (write_result f) result).1.
Proof.
  intros HnG Hlen e. subst e. destruct (builtin_partitions t d nG N HnG) as [P HP]. split.
  - by apply (For_terminates _ _ _ _ P).
  - intros sched r Hfor.
    apply For_outcome in Hfor as [[Hneg _]|(_ & s & -> & Hj & Hrun)];
      [simpl in Hneg; lia|].
    change (numGoroutines _) with nG in Hrun.
    assert (Forall (λ ev : event E, is_failure ev = false) (trace s)) as Hnf
      by (by apply (For_run_no_failure _ nG N (write_result f) result sched)).
    pose proof (For_complete_indices _ _ _ P _ _ _ _ HP HnG Hrun Hj Hnf) as Hperm.
    pose proof (For_run_inv _ _ _ _ _ _ _ Hrun) as (_ & Ho & _ & _).
    exists s. split; [done|].
    unfold SerialExecutor_For. rewrite serial_loop_write. simpl. f_equal.
    + unfold once_ok in Ho. destruct (loopErr s) as [err|]; [|done].
      destruct Ho as (_ & w & i & post & pre & Htr & _ & _ & Hin).
      assert (EvBody w i (Some err) ∈ trace s) as Hin'
        by (rewrite Htr; apply elem_of_app; right; by right).
      by pose proof (proj1 (Forall_forall _ _) Hnf _ Hin').
    + rewrite (For_run_write _ _ _ _ _ _ _ Hrun).
      replace (seqZ 0 (Z.of_nat (Z.to_nat N))) with (seqZ 0 N)
        by (unfold seqZ; by rewrite Nat2Z.id).
      apply (foldr_permutation (=));
        [solve_proper| |etrans; [exact Hperm|symmetry; apply reverse_Permutation]].
      intros j1 a1 j2 a2 b Hne H1 H2.
      assert (NoDup (body_indices (trace s))) as Hnd by (rewrite Hperm; apply NoDup_seqZ).
      assert (a1 ≠ a2) as Ha by (intros ->; by pose proof (NoDup_lookup _ _ _ _ Hnd H1 H2)).
      apply list_elem_of_lookup_2 in H1, H2. rewrite Hperm in H1, H2.
      apply elem_of_seqZ in H1, H2. apply list_insert_insert_ne. lia.
Qed.

Lemma For_agrees_with_SerialExecutor_witness :
  (1 ≤ 2 ∧ 3 ≤ Z.of_nat (length [0; 0; 0]))
  ∧ terminates (For_step (E:=unit) (For_strategy example_atomic2) 3 (write_result Z.succ))
      (For_init (For_strategy example_atomic2) 2 3 [0; 0; 0])
  ∧ ∀ sched r,
      For (E:=unit) example_atomic2 3 (write_result Z.succ) [0; 0; 0] sched = Some r ->
      ∃ s, r = Return s
           ∧ (loopErr s, caller s)
             = (SerialExecutor_For (E:=unit) 3 (write_result Z.succ) [0; 0; 0]).1.
Proof.
  split; [simpl; lia|].
  apply (For_agrees_with_SerialExecutor StrategyFetchNextIndex 8 2 3 Z.succ [0; 0; 0]);
    simpl; lia.
Defined.

(** C2: the error a call of [For] returns is the one of the first call of
    [errOnce.Do], the only one that ran; it was returned by a call of the
    loop body before; the errors of all other calls of [errOnce.Do] are
    dropped.  The call returns nil only if no call of the body failed. *)
Theorem For_returns_first_captured_error {E St} (e : Executor) (N : Z)
    (loopBody : Z -> Z -> St -> St * option E) (st : St) (sched : list nat)
    (s : state E St (For_strategy e)) :
  For e N loopBody st sched = Some (Return s) ->
  match loopErr s with
  | None => Forall (λ ev, is_failure ev = false) (trace s)
  | Some err =>
      ∃ w i post pre,
        trace s = post ++ EvOnce w err true :: pre
        ∧ Forall (λ ev, is_once ev = false) pre
        ∧ Forall (λ ev, is_capture ev = false) post
        ∧ EvBody w i (Some err) ∈ pre
  end.
Proof.
  intros Hfor. apply For_outcome in Hfor as [[_ [=]]|(_ & s' & [= <-] & Hj & Hrun)].
  pose proof (For_run_inv _ _ _ _ _ _ _ Hrun) as (Hlog & Ho & _ & _).
  pose proof (For_run_grIDs _ _ _ _ _ _ _ Hrun) as Hid.
  unfold once_ok in Ho. destruct (loopErr s) as [err|].
  - by destruct Ho as [_ Ho].
  - destruct Ho as [_ Ho]. by apply (joined_failures_offered _ N false).
Qed.

Lemma For_returns_first_captured_error_witness :
  ∃ s, For example_default2 2 record_and_fail [] [1; 0; 1; 0; 0; 1]%nat = Some (Return s)
       ∧ loopErr s = Some 0
       ∧ match loopErr s with
         | None => Forall (λ ev, is_failure ev = false) (trace s)
         | Some err =>
             ∃ w i post pre,
               trace s = post ++ EvOnce w err true :: pre
               ∧ Forall (λ ev, is_once ev = false) pre
               ∧ Forall (λ ev, is_capture ev = false) post
               ∧ EvBody w i (Some err) ∈ pre
         end.
Proof.
  assert (observe (For example_default2 2 record_and_fail [] [1; 0; 1; 0; 0; 1]%nat)
          = Some (Some (Some 0, [0; 1],
                        [EvOnce 1 1 false; EvOnce 0 0 true; EvBody 0 0 (Some 0);
                         EvBody 1 1 (Some 1); EvNext 0 0; EvNext 1 1]))) as Hobs
    by reflexivity.
  destruct (For example_default2 2 record_and_fail [] [1; 0; 1; 0; 0; 1]%nat)
    as [[|s]|] eqn:Hfor; [discriminate Hobs| |discriminate Hobs].
  exists s. split; [reflexivity|]. split; [by injection Hobs|].
  by apply (For_returns_first_captured_error _ _ _ _ _ _ Hfor).
Defined.

(** Under the contiguous blocks strategy a goroutine none of whose calls
    has failed works through its block. *)
Lemma For_blocks_inv {E St} nG N (loopBody : Z -> Z -> St -> St * option E) st sched
    (s : state E St newContiguousBlocksStrategy) :
  1 ≤ nG ->
  run (For_step newContiguousBlocksStrategy N loopBody) sched
    (For_init newContiguousBlocksStrategy nG N st) = Some s ->
  ∀ w p, workers s !! w = Some p -> blocks_at nG N w p (wlog w s).
Proof.
  intros HnG.
  apply (run_invariant _ _
           (λ s, ∀ w p, workers s !! w = Some p -> blocks_at nG N w p (wlog w s))).
  - intros l s1 s2 Hinv Hstep. unfold For_step in Hstep.
    destruct (workers s1 !! l) as [[g|g i|g i|err|]|] eqn:Hw; try done;
      pose proof (Hinv _ _ Hw) as Hb.
    + destruct (Next newContiguousBlocksStrategy g (mem s1)) as [[i g'] m'] eqn:Hnext.
      injection Hstep as <-. eapply per_worker_step; eauto.
      intros Hnf. inversion Hnf as [|? ? _ Hnf']. destruct (Hb Hnf') as [[Hs Hle] Hblk].
      simpl in Hnext. unfold contiguousNext in Hnext.
      destruct (Z.ltb_spec (cur g) (stop g)); injection Hnext as <- <- <-.
      * destruct (Z.ltb_spec (cur g) N); [|lia]. simpl. split; [split; [done|lia]|].
        rewrite <- Hblk. unfold body_indices. simpl. f_equal.
        rewrite (seqZ_cons (cur g)) by lia. f_equal. f_equal; lia.
      * rewrite Hs, Z.ltb_irrefl. simpl. rewrite <- Hblk.
        rewrite (seqZ_nil (cur g)) by lia. by rewrite app_nil_r.
    + destruct (loopBody i (Z.of_nat l) (caller s1)) as [st' r] eqn:Hbody.
      injection Hstep as <-. eapply per_worker_step; eauto.
      intros Hnf. inversion Hnf as [|? ? Hev Hnf']. destruct r as [err|]; [done|].
      destruct (Hb Hnf') as [Hg Hblk]. split; [done|]. rewrite <- Hblk.
      unfold body_indices. simpl. by rewrite reverse_cons, <- app_assoc.
    + destruct (errOnce s1); injection Hstep as <-; eapply per_worker_step; eauto;
        intros Hnf; inversion Hnf as [|? ? _ Hnf']; by destruct (Hb Hnf').
  - intros w p Hw. simpl in Hw. unfold spawn in Hw.
    apply list_lookup_fmap_Some in Hw as (k & -> & Hk).
    apply lookup_seq in Hk as [-> Hlt]. intros _.
    destruct (contiguous_partitions nG N HnG) as (Hspawn & _ & _). split.
    + by apply Hspawn.
    + unfold wlog, block. simpl. f_equal. lia.
Qed.

Lemma iterations_called {E} N w (h : list (event E)) i :
  iterations N false w h -> EvNext w i ∈ h -> ∃ r, EvBody w i r ∈ h.
Proof.
  induction 1 as [|j h Hj Hit IH]; intros Hin; [by apply not_elem_of_nil in Hin|].
  simpl in Hin. apply elem_of_cons in Hin as [?|Hin]; [done|].
  apply elem_of_cons in Hin as [[= ->]|Hin].
  - exists None. left.
  - destruct (IH Hin) as [r Hr]. exists r. simpl. by do 2 right.
Qed.

(** C4: in a call of [For] every goroutine returns either because its
    generator reported exhaustion or because its own call of the body
    failed, after which it only calls [errOnce.Do]: it claims no further
    index and calls the body no more.  No goroutine stops for a failure of
    another one: every index a goroutine has claimed is passed to the
    body, and under the default strategy a goroutine none of whose own
    calls failed calls the body for its whole block, in order. *)
Theorem For_failure_stops_only_its_goroutine {E St} (e : Executor) (N : Z)
    (loopBody : Z -> Z -> St -> St * option E) (st : St) (sched : list nat)
    (s : state E St (For_strategy e)) :
  For e N loopBody st sched = Some (Return s) ->
  ∀ w : nat, Z.of_nat w < numGoroutines e ->
    ((∃ i h, wlog w s = EvNext w i :: h ∧ N ≤ i ∧ iterations N false w h)
     ∨ (∃ err ran i h,
          wlog w s = EvOnce w err ran :: EvBody w i (Some err) :: EvNext w i :: h
          ∧ i < N ∧ iterations N false w h))
    ∧ (∀ i, EvNext w i ∈ wlog w s -> i < N -> ∃ r, EvBody w i r ∈ wlog w s)
    ∧ (parallelStrategy e = None ->
       Forall (λ ev, is_failure ev = false) (wlog w s) ->
       reverse (body_indices (wlog w s)) = block (numGoroutines e) w N).
Proof.
  intros Hfor w Hw.
  apply For_outcome in Hfor as [[_ [=]]|(_ & s' & [= <-] & Hj & Hrun)].
  pose proof (For_run_inv _ _ _ _ _ _ _ Hrun) as (Hlog & _ & _ & Hlen).
  destruct (lookup_lt_is_Some_2 (workers s) w) as [p Hp]; [lia|].
  pose proof (joined_done _ _ _ _ Hj Hp) as ->.
  pose proof (Hlog _ _ Hp) as Hl. simpl in Hl. split_and!.
  - inversion Hl as [i h Hi Hit Heq|i h Hc Hi Hit Heq|err ran i h Hi Hit Heq].
    + left. by exists i, h.
    + done.
    + right. by exists err, ran, i, h.
  - intros i Hin Hi.
    inversion Hl as [j h Hj' Hit Heq|j h Hc Hj' Hit Heq|err ran j h Hj' Hit Heq];
      rewrite <- Heq in Hin; [|done|].
    + apply elem_of_cons in Hin as [[= ->]|Hin]; [lia|].
      destruct (iterations_called _ _ _ _ Hit Hin) as [r Hr]. exists r. by right.
    + apply elem_of_cons in Hin as [?|Hin]; [done|].
      apply elem_of_cons in Hin as [?|Hin]; [done|]. simpl in Hin.
      apply elem_of_cons in Hin as [[= ->]|Hin].
      * exists (Some err). right. left.
      * destruct (iterations_called _ _ _ _ Hit Hin) as [r Hr]. exists r.
        simpl. by do 3 right.
  - intros Hdef Hnf. destruct e as [n [S|]]; [done|]. simpl in *.
    by apply (For_blocks_inv n N loopBody st sched s ltac:(lia) Hrun w PDone Hp).
Qed.

Lemma For_failure_stops_only_its_goroutine_witness :
  ∃ s, For example_default4 4 fail_at_zero ()
         [0; 0; 0; 1; 2; 3; 3; 2; 1; 1; 2; 3]%nat = Some (Return s)
       ∧ body_calls (trace s) = [(1, 1%nat); (2, 2%nat); (3, 3%nat); (0, 0%nat)]
       ∧ ∀ w : nat, Z.of_nat w < numGoroutines example_default4 ->
           ((∃ i h, wlog w s = EvNext w i :: h ∧ 4 ≤ i ∧ iterations 4 false w h)
            ∨ (∃ err ran i h,
                 wlog w s = EvOnce w err ran :: EvBody w i (Some err) :: EvNext w i :: h
                 ∧ i < 4 ∧ iterations 4 false w h))
           ∧ (∀ i, EvNext w i ∈ wlog w s -> i < 4 -> ∃ r, EvBody w i r ∈ wlog w s)
           ∧ (parallelStrategy example_default4 = None ->
              Forall (λ ev, is_failure ev = false) (wlog w s) ->
              reverse (body_indices (wlog w s))
              = block (numGoroutines example_default4) w 4).
Proof.
  assert (observe (For example_default4 4 fail_at_zero ()
                     [0; 0; 0; 1; 2; 3; 3; 2; 1; 1; 2; 3]%nat)
          = Some (Some (Some 0, (),
                        [EvNext 3 4; EvNext 2 4; EvNext 1 4; EvBody 1 1 None;
                         EvBody 2 2 None; EvBody 3 3 None; EvNext 3 3; EvNext 2 2;
                         EvNext 1 1; EvOnce 0 0 true; EvBody 0 0 (Some 0); EvNext 0 0])))
    as Hobs by reflexivity.
  destruct (For example_default4 4 fail_at_zero ()
              [0; 0; 0; 1; 2; 3; 3; 2; 1; 1; 2; 3]%nat)
    as [[|s]|] eqn:Hfor; [discriminate Hobs| |discriminate Hobs].
  exists s. split; [reflexivity|]. split.
  - injection Hobs as _ _ ->. reflexivity.
  - by apply (For_failure_stops_only_its_goroutine _ _ _ _ _ _ Hfor).
Defined.

(** C9: a worker count of zero makes [For] return nil without any call of
    the loop body, whatever [N] is, and a negative one makes [wg.Add]
    panic: the count is neither clamped to 1 nor rejected with an error. *)
Theorem For_nonpositive_count_unguarded {E St} (d N : Z)
    (loopBody : Z -> Z -> St -> St * option E) (st : St) :
  (∃ s, For (WithNumGoroutines 0 (NewExecutor d)) N loopBody st [] = Some (Return s)
        ∧ body_calls (trace s) = [] ∧ loopErr s = None)
  ∧ (∀ sched, For (WithNumGoroutines 0 (NewExecutor d)) N loopBody st sched
              = match sched with
                | [] => For (WithNumGoroutines 0 (NewExecutor d)) N loopBody st []
                | _ => None
                end)
  ∧ (∀ sched, For (WithNumGoroutines (-1) (NewExecutor d)) N loopBody st sched
              = Some Panic).
Proof.
  split_and!.
  - eexists. split; [reflexivity|]. done.
  - by intros [|w sched].
  - done.
Qed.

(** C8: [WithStrategy] installs the contiguous blocks strategy for
    [StrategyPreassignIndices], the atomic counter strategy for
    [StrategyFetchNextIndex] and no strategy for [StrategyUseDefaults] or
    an unrecognized tag; with no strategy installed both [For] and
    [ForWithContext] use the contiguous blocks strategy.  The two
    strategies differ. *)
Theorem WithStrategy_selects (e : Executor) :
  parallelStrategy (WithStrategy StrategyPreassignIndices e) = Some newContiguousBlocksStrategy
  ∧ parallelStrategy (WithStrategy StrategyFetchNextIndex e) = Some newAtomicCounterStrategy
  ∧ parallelStrategy (WithStrategy StrategyUseDefaults e) = None
  ∧ (∀ tag, parallelStrategy (WithStrategy (StrategyUnrecognized tag) e) = None)
  ∧ (∀ d, parallelStrategy (NewExecutor d) = None)
  ∧ (∀ e', parallelStrategy e' = None ->
       For_strategy e' = newContiguousBlocksStrategy
       ∧ ForWithContext_strategy e' = newContiguousBlocksStrategy)
  ∧ (∀ t, For_strategy (WithStrategy t e) = ForWithContext_strategy (WithStrategy t e)
          ∧ For_strategy (WithStrategy t e)
            = match t with
              | StrategyFetchNextIndex => newAtomicCounterStrategy
              | _ => newContiguousBlocksStrategy
              end)
  ∧ numGoroutines (WithStrategy StrategyUseDefaults e) = numGoroutines e
  ∧ newContiguousBlocksStrategy ≠ newAtomicCounterStrategy.
Proof.
  split_and!; try done.
  - intros e' He. unfold For_strategy, ForWithContext_strategy. by rewrite He.
  - by intros [].
  - intros Heq. apply (f_equal (λ s, first_claim s 2 1 2)) in Heq. done.
Qed.

(** ** SerialExecutor *)

Lemma serial_state_S {E St} (loopBody : Z -> Z -> St -> St * option E) i st k :
  serial_state loopBody i st (S k)
  = serial_state loopBody (i + 1) (loopBody i 0 st).1 k.
Proof.
  unfold serial_state. replace (Z.of_nat (S k)) with (Z.succ (Z.of_nat k)) by lia.
  rewrite (seqZ_cons i) by lia. rewrite Z.pred_succ.
  by replace (Z.succ i) with (i + 1) by lia.
Qed.

Lemma serial_loop_spec {E St} (loopBody : Z -> Z -> St -> St * option E)
    (n : nat) (i : Z) (st : St) (tr : list (event E)) :
  ∃ k : nat,
    (k ≤ n)%nat
    ∧ (∀ j : nat, (j < k)%nat ->
         (loopBody (i + Z.of_nat j) 0 (serial_state loopBody i st j)).2 = None)
    ∧ match serial_loop loopBody n i st tr with
      | (None, st', tr') =>
          k = n ∧ st' = serial_state loopBody i st k
          ∧ tr' = reverse ((λ j, EvBody 0 j None) <$> seqZ i (Z.of_nat k)) ++ tr
      | (Some err, st', tr') =>
          (k < n)%nat
          ∧ loopBody (i + Z.of_nat k) 0 (serial_state loopBody i st k) = (st', Some err)
          ∧ tr' = EvBody 0 (i + Z.of_nat k) (Some err)
                  :: reverse ((λ j, EvBody 0 j None) <$> seqZ i (Z.of_nat k)) ++ tr
      end.
Proof.
  revert i st tr. induction n as [|n IH]; intros i st tr.
  - exists 0%nat. split; [done|]. split; [lia|]. done.
  - cbn [serial_loop]. destruct (loopBody i 0 st) as [st1 [err|]] eqn:Hb.
    + exists 0%nat. split; [lia|]. split; [lia|]. split; [lia|].
      rewrite Z.add_0_r. done.
    + destruct (IH (i + 1) st1 (EvBody 0 i None :: tr)) as (k & Hk & Hnone & Hres).
      assert (∀ j, serial_state loopBody i st (S j) = serial_state loopBody (i + 1) st1 j)
        as HS by (intros j; by rewrite serial_state_S, Hb).
      exists (S k). split_and!; [lia| |].
      * intros [|j] Hj.
        -- rewrite Z.add_0_r. unfold serial_state. simpl. by rewrite Hb.
        -- rewrite HS. replace (i + Z.of_nat (S j)) with (i + 1 + Z.of_nat j) by lia.
           apply Hnone. lia.
      * assert (∀ tl : list (event E),
                  reverse ((λ j, EvBody 0 j None) <$> seqZ i (Z.of_nat (S k))) ++ tl
                  = reverse ((λ j, EvBody 0 j None) <$> seqZ (i + 1) (Z.of_nat k))
                      ++ EvBody 0 i None :: tl) as Hrev.
        { intros tl. replace (Z.of_nat (S k)) with (Z.succ (Z.of_nat k)) by lia.
          rewrite (seqZ_cons i) by lia. rewrite Z.pred_succ.
          replace (Z.succ i) with (i + 1) by lia.
          by rewrite fmap_cons, reverse_cons, <- app_assoc. }
        destruct (serial_loop loopBody n (i + 1) st1 (EvBody 0 i None :: tr))
          as [[[err|] st'] tr'].
        -- destruct Hres as (Hlt & Hcall & Htr). rewrite HS, Hrev.
           replace (i + Z.of_nat (S k)) with (i + 1 + Z.of_nat k) by lia.
           split_and!; [lia|done|done].
        -- destruct Hres as (-> & -> & ->). rewrite HS, Hrev. done.
Qed.

(** C5: [SerialExecutor().For(N, body)] calls the body for the indices 0,
    1, ... in ascending order with goroutine id 0, each call on the state
    the previous one left, until a call fails or [N] indices are done; it
    returns the error of the failing call, the last one made, or nil when
    all [N] calls succeeded. *)
Theorem SerialExecutor_For_in_order {E St} (N : Z)
    (loopBody : Z -> Z -> St -> St * option E) (st : St) :
  ∃ k : nat,
    (k ≤ Z.to_nat N)%nat
    ∧ (∀ j : nat, (j < k)%nat ->
         (loopBody (Z.of_nat j) 0 (serial_state loopBody 0 st j)).2 = None)
    ∧ match SerialExecutor_For N loopBody st with
      | (None, st', tr) =>
          k = Z.to_nat N ∧ st' = serial_state loopBody 0 st k
          ∧ tr = reverse ((λ j, EvBody 0 j None) <$> seqZ 0 (Z.of_nat k))
      | (Some err, st', tr) =>
          (k < Z.to_nat N)%nat
          ∧ loopBody (Z.of_nat k) 0 (serial_state loopBody 0 st k) = (st', Some err)
          ∧ tr = EvBody 0 (Z.of_nat k) (Some err)
                 :: reverse ((λ j, EvBody 0 j None) <$> seqZ 0 (Z.of_nat k))
      end.
Proof.
  unfold SerialExecutor_For.
  destruct (serial_loop_spec loopBody (Z.to_nat N) 0 st []) as (k & Hk & Hnone & Hres).
  exists k. split_and!; [done|done|].
  destruct (serial_loop loopBody (Z.to_nat N) 0 st []) as [[[err|] st'] tr].
  - by rewrite app_nil_r in Hres.
  - by rewrite app_nil_r in Hres.
Qed.

Example SerialExecutor_For_stops_at_failure :
  SerialExecutor_For 5 (λ i _ st, (i :: st, if i =? 2 then Some i else None)) []
  = (Some 2, [2; 1; 0], [EvBody 0 2 (Some 2); EvBody 0 1 None; EvBody 0 0 None]).
Proof. reflexivity. Qed.

(** ** ForWithContext: invariants of every execution *)

Section ForWithContext_facts.
Context {E St : Type}.
Variable strategy : Strategy.
Variable nG N : Z.
Variable loopBody : bool -> Z -> Z -> St -> St * option E.
Variable ctx_done : bool.
Implicit Types (s : state E St strategy) (p : pc E strategy) (ev : event E).

Lemma cancel_ok_quiet s s' ev :
  cancel_ok ctx_done s -> is_cancelling ev = false -> (∀ w i, ev ≠ EvPass w i) ->
  ctxErr s' = ctxErr s -> trace s' = ev :: trace s ->
  cancel_ok ctx_done s'.
Proof.
  intros [H1 H2] Hc Hp Hctx Htr. split.
  - rewrite Hctx, Htr. intros Hf. destruct (H1 Hf) as [? ?]. split; [done|by constructor].
  - intros post w i pre. rewrite Htr. intros Heq.
    destruct post as [|ev' post]; simpl in Heq; injection Heq as -> Heq'.
    + by destruct (Hp w i).
    + by apply (H2 post w i pre).
Qed.

Lemma cancel_ok_pass s s' w i :
  cancel_ok ctx_done s -> ctxErr s = false ->
  ctxErr s' = ctxErr s -> trace s' = EvPass w i :: trace s ->
  cancel_ok ctx_done s'.
Proof.
  intros [H1 H2] Hf Hctx Htr. destruct (H1 Hf) as [Hcd Hall]. split.
  - rewrite Htr. intros _. split; [done|by constructor].
  - intros post w' i' pre. rewrite Htr. intros Heq.
    destruct post as [|ev' post]; simpl in Heq.
    + inversion Heq; by subst.
    + injection Heq as _ Heq'. by apply (H2 post w' i' pre).
Qed.

Lemma cancel_ok_cancel s s' ev :
  cancel_ok ctx_done s -> (∀ w i, ev ≠ EvPass w i) ->
  ctxErr s' = true -> trace s' = ev :: trace s ->
  cancel_ok ctx_done s'.
Proof.
  intros [H1 H2] Hp Hctx Htr. split.
  - rewrite Hctx. done.
  - intros post w i pre. rewrite Htr. intros Heq.
    destruct post as [|ev' post]; simpl in Heq; injection Heq as -> Heq'.
    + by destruct (Hp w i).
    + by apply (H2 post w i pre).
Qed.

Lemma grIDs_step s s' ev :
  (∀ ev' w', ev' ∈ trace s -> ev_grID ev' = Some w' -> (w' < length (workers s))%nat) ->
  trace s' = ev :: trace s -> length (workers s') = length (workers s) ->
  (∀ w', ev_grID ev = Some w' -> (w' < length (workers s))%nat) ->
  ∀ ev' w', ev' ∈ trace s' -> ev_grID ev' = Some w' -> (w' < length (workers s'))%nat.
Proof.
  intros Hid Htr Hlen Hev ev' w' Hin Hw'. rewrite Hlen. rewrite Htr in Hin.
  apply elem_of_cons in Hin as [->|Hin]; eauto.
Qed.

Lemma ForWithContext_init_inv (st : St) :
  ForWithContext_inv nG N ctx_done (ForWithContext_init (E:=E) strategy nG N ctx_done st).
Proof.
  unfold ForWithContext_inv, ForWithContext_init, logs_ok, once_ok, cancel_ok, spawn, wlog.
  simpl. split_and!.
  - intros w p Hw. apply list_lookup_fmap_Some in Hw as (k & -> & _).
    simpl. constructor.
  - done.
  - done.
  - done.
  - by intros [].
  - by rewrite length_fmap, length_seq.
  - intros ev w Hin. by apply not_elem_of_nil in Hin.
Qed.

Lemma ForWithContext_step_inv l s s' :
  ForWithContext_step strategy N loopBody l s = Some s' ->
  ForWithContext_inv nG N ctx_done s -> ForWithContext_inv nG N ctx_done s'.
Proof.
  intros Hstep (Hlog & Honce & Hcan & Hlen & Hid). unfold ForWithContext_step in Hstep.
  destruct l as [w|].
  - destruct (workers s !! w) as [p|] eqn:Hw; [|done].
    pose proof (lookup_lt_Some _ _ _ Hw) as Hlt.
    pose proof (Hlog _ _ Hw) as Hl.
    destruct p as [g|g i|g i|err|]; try done; simpl in Hl.
    + destruct (Next strategy g (mem s)) as [[i g'] m'] eqn:Hnext.
      injection Hstep as <-. split_and!.
      * eapply logs_ok_step; eauto. destruct (Z.ltb_spec i N); simpl.
        -- split_and!; [done..|]. by exists (wlog w s).
        -- by constructor.
      * by apply (once_ok_quiet _ s _ (EvNext w i)).
      * by apply (cancel_ok_quiet s _ (EvNext w i)).
      * simpl. by rewrite length_insert.
      * apply (grIDs_step s _ (EvNext w i)); try done.
        -- simpl. by rewrite length_insert.
        -- by intros w' [= <-].
    + destruct Hl as (_ & Hi & h' & Hh & Hit).
      destruct (ctxErr s) eqn:Hctx; injection Hstep as <-; split_and!.
      * eapply logs_ok_step; eauto. rewrite Hh.
        by apply (stopped_cancelled N true w i h').
      * by apply (once_ok_quiet _ s _ (EvStop w i)).
      * by apply (cancel_ok_quiet s _ (EvStop w i)).
      * simpl. by rewrite length_insert.
      * apply (grIDs_step s _ (EvStop w i)); try done.
        -- simpl. by rewrite length_insert.
        -- by intros w' [= <-].
      * eapply logs_ok_step; eauto. rewrite Hh. split; [done|]. by exists h'.
      * by apply (once_ok_quiet _ s _ (EvPass w i)).
      * by apply (cancel_ok_pass s _ w i).
      * simpl. by rewrite length_insert.
      * apply (grIDs_step s _ (EvPass w i)); try done.
        -- simpl. by rewrite length_insert.
        -- by intros w' [= <-].
    + destruct (loopBody (ctxErr s) i (Z.of_nat w) (caller s)) as [st' r] eqn:Hbody.
      injection Hstep as <-. destruct Hl as (Hi & h' & Hh & Hit). split_and!.
      * eapply logs_ok_step; eauto. rewrite Hh. destruct r as [err|]; simpl.
        -- by exists i, h'.
        -- by apply (iterations_cons N true w i h').
      * by apply (once_ok_quiet _ s _ (EvBody w i r)).
      * by apply (cancel_ok_quiet s _ (EvBody w i r)).
      * simpl. by rewrite length_insert.
      * apply (grIDs_step s _ (EvBody w i r)); try done.
        -- simpl. by rewrite length_insert.
        -- by intros w' [= <-].
    + destruct Hl as (i & h' & Hi & Hh & Hit).
      destruct (errOnce s) eqn:Ho; injection Hstep as <-; split_and!.
      * eapply logs_ok_step; eauto. rewrite Hh.
        by apply (stopped_failed N true w err false i h').
      * by apply (once_ok_lost _ s _ w err).
      * by apply (cancel_ok_quiet s _ (EvOnce w err false)).
      * simpl. by rewrite length_insert.
      * apply (grIDs_step s _ (EvOnce w err false)); try done.
        -- simpl. by rewrite length_insert.
        -- by intros w' [= <-].
      * eapply logs_ok_step; eauto. rewrite Hh.
        by apply (stopped_failed N true w err true i h').
      * apply (once_ok_won _ s _ w err i); try done.
        apply (wlog_subseteq _ w). rewrite Hh. left.
      * by apply (cancel_ok_cancel s _ (EvOnce w err true)).
      * simpl. by rewrite length_insert.
      * apply (grIDs_step s _ (EvOnce w err true)); try done.
        -- simpl. by rewrite length_insert.
        -- by intros w' [= <-].
  - destruct (ctxErr s) eqn:Hctx; [done|]. injection Hstep as <-. split_and!.
    + intros w p Hw. unfold wlog. simpl. rewrite filter_cons_False by (by intros []).
      by apply Hlog.
    + by apply (once_ok_quiet _ s _ EvCancel).
    + by apply (cancel_ok_cancel s _ EvCancel).
    + done.
    + by apply (grIDs_step s _ EvCancel).
Qed.

Lemma ForWithContext_run_inv st sched s :
  run (ForWithContext_step strategy N loopBody) sched
    (ForWithContext_init strategy nG N ctx_done st) = Some s ->
  ForWithContext_inv nG N ctx_done s.
Proof.
  apply (run_invariant _ _ (ForWithContext_inv nG N ctx_done));
    [|apply ForWithContext_init_inv].
  intros l s1 s2 H1 H2. by eapply ForWithContext_step_inv.
Qed.

End ForWithContext_facts.

(** ** Checks, calls and cancellation in a goroutine's log *)

Section Log_facts.
Context {E : Type}.
Variable strategy : Strategy.
Variable N : Z.
Implicit Types (h : list (event E)) (ev : event E).

Lemma body_checked_cons w ev h :
  is_body ev = false -> body_checked w h -> body_checked w (ev :: h).
Proof.
  intros Hev Hh post i r pre Heq.
  destruct post as [|ev' post]; simpl in Heq; injection Heq as -> Heq'; [done|].
  by apply (Hh post i r pre).
Qed.

Lemma body_checked_body w i r h :
  body_checked w h -> body_checked w (EvBody w i r :: EvPass w i :: EvNext w i :: h).
Proof.
  intros Hh post j r' pre Heq.
  destruct post as [|ev' post]; simpl in Heq; injection Heq.
  - intros <- _ <-. by exists h.
  - intros Heq' _. revert Heq'. by apply body_checked_cons, body_checked_cons.
Qed.

Lemma iterations_checked w h : iterations N true w h -> body_checked w h.
Proof.
  induction 1 as [|i h Hi Hit IH]; [by intros [|]|]. by apply body_checked_body.
Qed.

Lemma log_at_checked w (p : pc E strategy) h : log_at N true w p h -> body_checked w h.
Proof.
  destruct p as [g|g i|g i|err|]; simpl.
  - apply iterations_checked.
  - intros (_ & _ & h' & -> & Hit). by apply body_checked_cons, iterations_checked.
  - intros (_ & h' & -> & Hit).
    by apply body_checked_cons, body_checked_cons, iterations_checked.
  - intros (i & h' & _ & -> & Hit). by apply body_checked_body, iterations_checked.
  - intros Hs. inversion Hs as [i h' Hi Hit Heq|i h' _ Hi Hit Heq|err ran i h' Hi Hit Heq].
    + by apply body_checked_cons, iterations_checked.
    + by apply body_checked_cons, body_checked_cons, iterations_checked.
    + by apply body_checked_cons, body_checked_body, iterations_checked.
Qed.

Lemma stop_last_none w h : Forall (λ ev, is_stop ev = false) h -> stop_last w h.
Proof.
  intros Hall post i pre ->. apply Forall_app in Hall as [_ Hall].
  by inversion Hall.
Qed.

Lemma iterations_no_stop w h :
  iterations N true w h -> Forall (λ ev, is_stop ev = false) h.
Proof.
  intros Hit. apply iterations_quiet in Hit. eapply Forall_impl; [exact Hit|].
  by intros ev (_ & _ & ?).
Qed.

Lemma log_at_stop_last w (p : pc E strategy) h : log_at N true w p h -> stop_last w h.
Proof.
  destruct p as [g|g i|g i|err|]; simpl.
  - intros Hit. apply stop_last_none. by eapply iterations_no_stop.
  - intros (_ & _ & h' & -> & Hit).
    apply stop_last_none. constructor; [done|]. by eapply iterations_no_stop.
  - intros (_ & h' & -> & Hit).
    apply stop_last_none. simpl. repeat (constructor; [done|]). by eapply iterations_no_stop.
  - intros (i & h' & _ & -> & Hit).
    apply stop_last_none. simpl. repeat (constructor; [done|]). by eapply iterations_no_stop.
  - intros Hs. inversion Hs as [i h' Hi Hit Heq|i h' _ Hi Hit Heq|err ran i h' Hi Hit Heq].
    + apply stop_last_none. constructor; [done|]. by eapply iterations_no_stop.
    + intros post j pre Hdec.
      destruct post as [|ev' post]; simpl in Hdec; injection Hdec.
      * intros <- <-. split; [done|]. by exists h'.
      * intros Hdec' _. exfalso.
        assert (Forall (λ ev : event E, is_stop ev = false) (EvNext w i :: h')) as Hall
          by (constructor; [done|by eapply iterations_no_stop]).
        rewrite Hdec' in Hall. apply Forall_app in Hall as [_ Hall]. by inversion Hall.
    + apply stop_last_none. simpl. repeat (constructor; [done|]).
      by eapply iterations_no_stop.
Qed.

Lemma wlog_unspawned {St} (s : state E St strategy) w :
  (∀ ev w', ev ∈ trace s -> ev_grID ev = Some w' -> (w' < length (workers s))%nat) ->
  ¬ (w < length (workers s))%nat -> wlog w s = [].
Proof.
  intros Hid Hw. destruct (wlog w s) as [|ev h] eqn:Hlog; [done|]. exfalso.
  assert (ev ∈ wlog w s) as Hin by (rewrite Hlog; left).
  unfold wlog in Hin. apply list_elem_of_filter in Hin as [Hby Hin].
  unfold by_grID in Hby. destruct (ev_grID ev) as [w'|] eqn:Hev; [|done].
  apply Is_true_true, Nat.eqb_eq in Hby as ->. apply Hw. by apply (Hid ev).
Qed.

End Log_facts.

(** ** Calls of [ForWithContext] *)

Lemma ForWithContext_outcome {E St} (e : Executor) ctx_done N
    (loopBody : bool -> Z -> Z -> St -> St * option E) st sched r :
  ForWithContext e ctx_done N loopBody st sched = Some r ->
  (numGoroutines e < 0 ∧ r = Panic)
  ∨ (0 ≤ numGoroutines e
     ∧ ∃ s, r = Return s ∧ joined s = true
            ∧ run (ForWithContext_step (ForWithContext_strategy e) N loopBody) sched
                (ForWithContext_init (ForWithContext_strategy e) (numGoroutines e) N
                   ctx_done st) = Some s).
Proof.
  unfold ForWithContext. destruct (Z.ltb_spec (numGoroutines e) 0) as [Hneg|Hpos].
  - intros [= <-]. by left.
  - destruct (run _ sched _) as [s|] eqn:Hrun; [|done].
    destruct (joined s) eqn:Hj; [|done]. intros [= <-]. right. eauto.
Qed.

Lemma ForWithContext_logs {E St} strategy nG N
    (loopBody : bool -> Z -> Z -> St -> St * option E) ctx_done st sched
    (s : state E St strategy) :
  run (ForWithContext_step strategy N loopBody) sched
    (ForWithContext_init strategy nG N ctx_done st) = Some s ->
  ∀ w, body_checked w (wlog w s) ∧ stop_last w (wlog w s).
Proof.
  intros Hrun w.
  pose proof (ForWithContext_run_inv _ _ _ _ _ _ _ _ Hrun) as (Hlog & _ & _ & _ & Hid).
  destruct (decide (w < length (workers s))%nat) as [Hw|Hw].
  - apply lookup_lt_is_Some in Hw as [p Hp]. pose proof (Hlog _ _ Hp) as Hl.
    split; [by eapply log_at_checked|by eapply log_at_stop_last].
  - rewrite (wlog_unspawned _ s w Hid Hw). split; [by intros [|]|by intros [|]].
Qed.

(** C3: in every state a call of [ForWithContext] reaches, (1) every call
    of the loop body comes, in its goroutine, right after a check of the
    derived context that passed; (2) a check passes only while the context
    is not cancelled; (3) a goroutine that finds the context cancelled
    has claimed an index, does not call the body for it and does nothing
    more; (4) a call of the body made after the cancellation is the first
    step of its goroutine after it, so each goroutine calls the body at
    most once more, for the index it had checked before; (5) the context
    is cancelled once the caller's context is or [errOnce.Do] ran; and (6)
    once a goroutine has called [errOnce.Do], the first such call ran, its
    error is in the slot and the context is cancelled. *)
Theorem ForWithContext_checks_before_body {E St} (e : Executor) (ctx_done : bool) (N : Z)
    (loopBody : bool -> Z -> Z -> St -> St * option E) (st : St) (sched : list label)
    (s : state E St (ForWithContext_strategy e)) :
  run (ForWithContext_step (ForWithContext_strategy e) N loopBody) sched
    (ForWithContext_init (ForWithContext_strategy e) (numGoroutines e) N ctx_done st)
  = Some s ->
  (∀ w, body_checked w (wlog w s))
  ∧ (∀ post w i pre, trace s = post ++ EvPass w i :: pre ->
       ctx_done = false ∧ Forall (λ ev, is_cancelling ev = false) pre)
  ∧ (∀ w, stop_last w (wlog w s))
  ∧ (∀ post pre w a i r b,
       trace s = post ++ pre ->
       ctx_done = true ∨ Exists (λ ev, is_cancelling ev = true) pre ->
       filter (λ ev, by_grID w ev) post = a ++ EvBody w i r :: b ->
       b = [])
  ∧ (ctx_done = true ∨ Exists (λ ev, is_cancelling ev = true) (trace s) ->
       ctxErr s = true)
  ∧ (Exists (λ ev, is_once ev = true) (trace s) ->
       ctxErr s = true
       ∧ ∃ w err i post pre,
           loopErr s = Some err
           ∧ trace s = post ++ EvOnce w err true :: pre
           ∧ Forall (λ ev, is_once ev = false) pre
           ∧ Forall (λ ev, is_capture ev = false) post
           ∧ EvBody w i (Some err) ∈ pre).
Proof.
  intros Hrun.
  pose proof (ForWithContext_run_inv _ _ _ _ _ _ _ _ Hrun)
    as (Hlog & Ho & [Hc1 Hc2] & _ & Hid).
  pose proof (ForWithContext_logs _ _ _ _ _ _ _ _ Hrun) as Hlogs.
  assert (ctx_done = true ∨ Exists (λ ev : event E, is_cancelling ev = true) (trace s) ->
          ctxErr s = true) as Hcancelled.
  { intros Hor. destruct (ctxErr s) eqn:Hctx; [done|]. destruct (Hc1 eq_refl) as [Hcd Hall].
    destruct Hor as [?|Hex]; [congruence|].
    apply Exists_exists in Hex as (ev & Hin & Hev).
    pose proof (proj1 (Forall_forall _ _) Hall _ Hin). congruence. }
  split_and!.
  - intros w. apply Hlogs.
  - exact Hc2.
  - intros w. apply Hlogs.
  - intros post pre w a i r b Htr Hor Hfil.
    destruct (Hlogs w) as [Hchk _].
    assert (wlog w s = a ++ EvBody w i r :: (b ++ filter (λ ev, by_grID w ev) pre)) as Hw.
    { unfold wlog. rewrite Htr, filter_app, Hfil, <- app_assoc. done. }
    destruct (Hchk _ _ _ _ Hw) as [pre' Hpre].
    destruct b as [|ev b]; [done|]. exfalso. simpl in Hpre. injection Hpre as -> _.
    assert (EvPass w i ∈ post) as Hin.
    { assert (EvPass w i ∈ filter (λ ev, by_grID w ev) post) as Hin
        by (rewrite Hfil; apply elem_of_app; right; right; left).
      by apply list_elem_of_filter in Hin as [_ Hin]. }
    apply list_elem_of_split in Hin as (p1 & p2 & ->).
    rewrite <- app_assoc in Htr. simpl in Htr.
    destruct (Hc2 _ _ _ _ Htr) as [Hcd Hall]. apply Forall_app in Hall as [_ Hall].
    destruct Hor as [?|Hex]; [congruence|].
    apply Exists_exists in Hex as (ev & Hin & Hev).
    pose proof (proj1 (Forall_forall _ _) Hall _ Hin). congruence.
  - exact Hcancelled.
  - intros Hex. unfold once_ok in Ho. destruct (loopErr s) as [err|].
    + destruct Ho as (_ & w & i & post & pre & Htr & Hpre & Hpost & Hin). split.
      * apply Hcancelled. right. rewrite Htr. apply Exists_app. right. by left.
      * by exists w, err, i, post, pre.
    + destruct Ho as [_ Hall]. apply Exists_exists in Hex as (ev & Hin & Hev).
      pose proof (proj1 (Forall_forall _ _) Hall _ Hin). congruence.
Qed.

Lemma ForWithContext_checks_before_body_witness :
  ∃ s, run (ForWithContext_step (ForWithContext_strategy example_default4) 4
              fail_at_zero_ctx)
         [Run 0; Run 0; Run 1; Run 0; Run 0; Run 1; Run 2; Run 2; Run 3; Run 3]%nat
         (ForWithContext_init (ForWithContext_strategy example_default4)
            (numGoroutines example_default4) 4 false ()) = Some s
       ∧ (joined s = true ∧ body_calls (trace s) = [(0, 0%nat)] ∧ loopErr s = Some 0)
       ∧ (∀ w, body_checked w (wlog w s))
       ∧ (∀ w, stop_last w (wlog w s)).
Proof.
  assert (observe_state
            <$> run (ForWithContext_step (ForWithContext_strategy example_default4) 4
                       fail_at_zero_ctx)
                  [Run 0; Run 0; Run 1; Run 0; Run 0; Run 1; Run 2; Run 2; Run 3; Run 3]%nat
                  (ForWithContext_init (ForWithContext_strategy example_default4)
                     (numGoroutines example_default4) 4 false ())
          = Some (true, Some 0, (),
                  [EvStop 3 3; EvNext 3 3; EvStop 2 2; EvNext 2 2; EvStop 1 1;
                   EvOnce 0 0 true; EvBody 0 0 (Some 0); EvNext 1 1; EvPass 0 0;
                   EvNext 0 0])) as Hobs by reflexivity.
  destruct (run _ _ _) as [s|] eqn:Hrun; [|discriminate Hobs].
  exists s. split; [reflexivity|]. split.
  - injection Hobs as -> -> _ ->. done.
  - split; by apply (ForWithContext_checks_before_body _ _ _ _ _ _ _ Hrun).
Defined.

Lemma body_calls_inv {E} (tr : list (event E)) i w :
  (i, w) ∈ body_calls tr -> ∃ r, EvBody w i r ∈ tr.
Proof.
  induction tr as [|ev tr IH]; simpl; intros Hin; [by apply not_elem_of_nil in Hin|].
  assert ((i, w) ∈ body_calls tr -> ∃ r, EvBody w i r ∈ ev :: tr) as Hrec
    by (intros H; destruct (IH H) as [r Hr]; exists r; by right).
  destruct ev as [| | |w' i' r'| |]; auto.
  apply elem_of_cons in Hin as [[= -> ->]|Hin]; [|auto]. exists r'. left.
Qed.

Section Precancelled.
Context {E St : Type}.
Variable strategy : Strategy.
Variable nG N : Z.
Variable loopBody : bool -> Z -> Z -> St -> St * option E.
Implicit Types (s : state E St strategy).

Lemma precancelled_step l s s' :
  ForWithContext_step strategy N loopBody l s = Some s' -> precancelled_ok s ->
  precancelled_ok s'
  ∧ (sum_list (precancelled_weight <$> workers s')
     < sum_list (precancelled_weight <$> workers s))%nat.
Proof.
  intros Hstep [Hctx Hall]. unfold ForWithContext_step in Hstep.
  destruct l as [w|]; [|by rewrite Hctx in Hstep].
  destruct (workers s !! w) as [p|] eqn:Hw; [|done].
  pose proof (Forall_lookup_1 _ _ _ _ Hall Hw) as Hp.
  destruct p as [g|g i|g i|err|]; try done.
  - destruct (Next strategy g (mem s)) as [[i g'] m'] eqn:Hnext.
    injection Hstep as <-.
    pose proof (sum_list_insert precancelled_weight _ _ _
                  (if i <? N then PCheck g' i else PDone) Hw) as Hsum.
    unfold precancelled_ok. simpl in *. split_and!; [done| |].
    + apply Forall_insert; [done|]. by destruct (i <? N).
    + destruct (i <? N); simpl in *; lia.
  - rewrite Hctx in Hstep. injection Hstep as <-.
    pose proof (sum_list_insert precancelled_weight _ _ _ PDone Hw) as Hsum.
    unfold precancelled_ok. simpl in *. split_and!; [done| |lia].
    by apply Forall_insert.
Qed.

Lemma precancelled_progress s :
  precancelled_ok s -> joined s = false ->
  ∃ l, is_Some (ForWithContext_step strategy N loopBody l s).
Proof.
  intros [Hctx Hall] Hj. apply forallb_is_done_false in Hj as (w & p & Hw & Hp).
  exists (Run w). simpl. rewrite Hw.
  pose proof (Forall_lookup_1 _ _ _ _ Hall Hw) as Hc.
  destruct p as [g|g i|g i|err|]; try done.
  - by destruct (Next strategy g (mem s)) as [[i g'] m'].
  - by rewrite Hctx.
Qed.

Lemma precancelled_init (st : St) :
  precancelled_ok (ForWithContext_init (E:=E) strategy nG N true st).
Proof.
  split; [done|]. simpl. unfold spawn. by apply Forall_fmap, Forall_forall.
Qed.

Lemma precancelled_terminates st :
  terminates (ForWithContext_step strategy N loopBody)
    (ForWithContext_init strategy nG N true st).
Proof.
  exists (sum_list (precancelled_weight
            <$> workers (ForWithContext_init (E:=E) strategy nG N true st))).
  intros sched s Hrun. split.
  - pose proof (run_bounded _ _ precancelled_ok
                  (λ s, sum_list (precancelled_weight <$> workers s))
                  (λ l s1 s2 H1 H2, precancelled_step l s1 s2 H2 H1)
                  _ _ _ (precancelled_init st) Hrun) as Hb.
    cbv beta in Hb. lia.
  - intros Hj. apply precancelled_progress; [|done]. revert Hrun.
    apply (run_invariant _ (ForWithContext_step strategy N loopBody) precancelled_ok);
      [|apply precancelled_init].
    intros l s1 s2 H1 H2. by eapply precancelled_step.
Qed.

Lemma precancelled_no_body st sched s :
  run (ForWithContext_step strategy N loopBody) sched
    (ForWithContext_init strategy nG N true st) = Some s ->
  body_calls (trace s) = [] ∧ loopErr s = None.
Proof.
  intros Hrun.
  pose proof (ForWithContext_run_inv _ _ _ _ _ _ _ _ Hrun) as (_ & Ho & [_ Hc2] & _ & _).
  assert (∀ w i r, EvBody w i r ∉ trace s) as Hnone.
  { intros w i r Hin.
    destruct (ForWithContext_logs _ _ _ _ _ _ _ _ Hrun w) as [Hchk _].
    pose proof (elem_of_wlog _ w s _ Hin eq_refl) as Hinw.
    apply list_elem_of_split in Hinw as (post & pre & Hw).
    destruct (Hchk _ _ _ _ Hw) as [pre' ->].
    assert (EvPass w i ∈ trace s) as Hp
      by (apply (wlog_subseteq _ w); rewrite Hw; apply elem_of_app; right; right; left).
    apply list_elem_of_split in Hp as (p1 & p2 & Htr).
    by destruct (Hc2 _ _ _ _ Htr). }
  split.
  - destruct (body_calls (trace s)) as [|[i w] l] eqn:Hb; [done|]. exfalso.
    destruct (body_calls_inv (trace s) i w) as [r Hr]; [rewrite Hb; left|].
    by apply (Hnone w i r).
  - unfold once_ok in Ho. destruct (loopErr s) as [err|]; [exfalso|done].
    destruct Ho as (_ & w & i & post & pre & Htr & _ & _ & Hin).
    apply (Hnone w i (Some err)). rewrite Htr. apply elem_of_app. right. by right.
Qed.

End Precancelled.

(** C10: with a context that is cancelled when the call begins,
    [ForWithContext] returns, in every execution without any call of the
    loop body and with nil, not with the error of the context; and for
    every input an error the call returns was returned by a call of the
    loop body. *)
Theorem ForWithContext_returns_only_body_errors {E St} (e : Executor) (N : Z)
    (loopBody : bool -> Z -> Z -> St -> St * option E) (st : St) :
  terminates (ForWithContext_step (ForWithContext_strategy e) N loopBody)
    (ForWithContext_init (ForWithContext_strategy e) (numGoroutines e) N true st)
  ∧ (∀ sched r, ForWithContext e true N loopBody st sched = Some r ->
       r = Panic ∨ ∃ s, r = Return s ∧ body_calls (trace s) = [] ∧ loopErr s = None)
  ∧ (∀ ctx_done sched s err,
       ForWithContext e ctx_done N loopBody st sched = Some (Return s) ->
       loopErr s = Some err -> ∃ w i, EvBody w i (Some err) ∈ trace s).
Proof.
  split_and!.
  - apply precancelled_terminates.
  - intros sched r Hfor.
    apply ForWithContext_outcome in Hfor as [[_ ->]|(_ & s & -> & _ & Hrun)]; [by left|].
    right. exists s. split; [done|]. by eapply precancelled_no_body.
  - intros ctx_done sched s err Hfor Herr.
    apply ForWithContext_outcome in Hfor as [[_ [=]]|(_ & s' & [= <-] & _ & Hrun)].
    pose proof (ForWithContext_run_inv _ _ _ _ _ _ _ _ Hrun) as (_ & Ho & _).
    unfold once_ok in Ho. rewrite Herr in Ho.
    destruct Ho as (_ & w & i & post & pre & Htr & _ & _ & Hin).
    exists w, i. rewrite Htr. apply elem_of_app. right. by right.
Qed.

Example ForWithContext_precancelled :
  observe (ForWithContext example_default2 true 4 fail_at_zero_ctx ()
             [Run 0; Run 1; Run 1; Run 0]%nat)
  = Some (Some (None, (), [EvStop 0 0; EvStop 1 2; EvNext 1 2; EvNext 0 0])).
Proof. reflexivity. Qed.

(** ** ForWithContext: partition and termination *)

Section ForWithContext_partition.
Context {E St : Type}.
Variable strategy : Strategy.
Variable nG N : Z.
Variable loopBody : bool -> Z -> Z -> St -> St * option E.
Variable ctx_done : bool.
Variable P : Pools strategy.
Hypothesis HP : partitions nG N P.
Implicit Types (s : state E St strategy) (p : pc E strategy) (ev : event E).

Lemma ForWithContext_init_pools (st : St) :
  ctx_pools_ok N P (ForWithContext_init (E:=E) strategy nG N ctx_done st).
Proof.
  destruct HP as (Hspawn & Hinit & _).
  unfold ctx_pools_ok, ForWithContext_init, spawn. simpl. split.
  - apply Forall_fmap, Forall_forall. intros w Hw. simpl.
    apply Hspawn. apply elem_of_seq in Hw. lia.
  - exists []. split.
    + rewrite <- list_fmap_compose.
      unfold body_indices. simpl. rewrite app_nil_r. exact Hinit.
    + intros _ _. split_and!; [done| |right]; by apply Forall_fmap, Forall_forall.
Qed.

Lemma ForWithContext_step_pools l s s' :
  ForWithContext_step strategy N loopBody l s = Some s' -> ctx_pools_ok N P s ->
  ctx_pools_ok N P s' ∧ (measure P s' < measure P s)%nat.
Proof.
  destruct HP as (_ & _ & Hnext_ok).
  intros Hstep (Hok & lost & Hperm & Hlost). unfold ForWithContext_step in Hstep.
  destruct l as [w|].
  - destruct (workers s !! w) as [[g|g i|g i|err|]|] eqn:Hw; try done.
    + destruct (Next strategy g (mem s)) as [[i g'] m'] eqn:Hnext.
      injection Hstep as <-.
      pose proof (Forall_lookup_1 _ _ _ _ Hok Hw) as Hg. simpl in Hg.
      destruct (Hnext_ok _ _ _ _ _ Hg Hnext) as [Hg' Hrel].
      destruct (concat_insert_perm (owed P) _ _ _ Hw) as (rest & H1 & H2).
      pose proof (sum_list_insert (weight P) _ _ _
                    (if i <? N then PCheck g' i else PDone) Hw) as Hsum.
      unfold ctx_pools_ok, measure, body_indices in *. simpl in *.
      destruct (i <? N); simpl in *.
      * destruct Hrel as [Hrel Hmono]. split_and!.
        -- by apply Forall_insert.
        -- exists lost. split.
           ++ rewrite H2. rewrite <- Hperm, H1. simpl.
              transitivity ((body_calls (trace s)).*1 ++ rest ++ lost
                              ++ (i :: pool_g P g' ++ pool_m P m')); [solve_Permutation|].
              rewrite <- Hrel. solve_Permutation.
           ++ intros Hc H. inversion H as [|? ? _ H'].
              destruct (Hlost Hc H') as (Hl & Hno & Hm).
              split_and!; [done|by apply Forall_insert|].
              destruct Hm as [Hm|Hm]; [left; by apply Hmono|right; by apply Forall_insert].
        -- apply Permutation_length in Hrel. simpl in Hrel.
           rewrite !length_app in Hrel. lia.
      * destruct Hrel as (Hnil & Hm & Hm'). rewrite Hm' in *. rewrite Hm in *.
        rewrite Hnil in *. simpl in *. split_and!.
        -- by apply Forall_insert.
        -- exists lost. split.
           ++ rewrite H2. rewrite <- Hperm, H1. done.
           ++ intros Hc H. inversion H as [|? ? _ H'].
              destruct (Hlost Hc H') as (Hl & Hno & _).
              split_and!; [done|by apply Forall_insert|by left].
        -- lia.
    + pose proof (Forall_lookup_1 _ _ _ _ Hok Hw) as Hg. simpl in Hg.
      destruct (concat_insert_perm (owed P) _ _ _ Hw) as (rest & H1 & H2).
      unfold ctx_pools_ok, measure, body_indices in *.
      destruct (ctxErr s) eqn:Hctx; injection Hstep as <-; simpl in *.
      * pose proof (sum_list_insert (weight P) _ _ _ PDone Hw) as Hsum.
        rewrite Hctx. simpl in *. split_and!.
        -- by apply Forall_insert.
        -- exists (i :: pool_g P g ++ lost). split; [|done].
           rewrite H2. rewrite <- Hperm, H1. simpl. solve_Permutation.
        -- lia.
      * pose proof (sum_list_insert (weight P) _ _ _ (PBody g i) Hw) as Hsum.
        rewrite Hctx. simpl in *. split_and!.
        -- by apply Forall_insert.
        -- exists lost. split.
           ++ rewrite H2. rewrite <- Hperm, H1. done.
           ++ intros _ H. inversion H as [|? ? _ H'].
              destruct (Hlost eq_refl H') as (Hl & Hno & Hm).
              split_and!; [done|by apply Forall_insert|].
              destruct Hm as [Hm|Hm]; [by left|right; by apply Forall_insert].
        -- lia.
    + destruct (loopBody (ctxErr s) i (Z.of_nat w) (caller s)) as [st' r] eqn:Hbody.
      injection Hstep as <-.
      pose proof (Forall_lookup_1 _ _ _ _ Hok Hw) as Hg. simpl in Hg.
      destruct (concat_insert_perm (owed P) _ _ _ Hw) as (rest & H1 & H2).
      pose proof (sum_list_insert (weight P) _ _ _
                    (match r with Some err => POnce err | None => PNext g end) Hw) as Hsum.
      unfold ctx_pools_ok, measure, body_indices in *. simpl in *.
      destruct r as [err|]; simpl in *.
      * split_and!.
        -- by apply Forall_insert.
        -- exists (pool_g P g ++ lost). split; [|by intros _ H; inversion H].
           rewrite H2. rewrite <- Hperm, H1. simpl. solve_Permutation.
        -- lia.
      * split_and!.
        -- by apply Forall_insert.
        -- exists lost. split.
           ++ rewrite H2. rewrite <- Hperm, H1. simpl. solve_Permutation.
           ++ intros Hc H. inversion H as [|? ? _ H'].
              destruct (Hlost Hc H') as (Hl & Hno & Hm).
              split_and!; [done|by apply Forall_insert|].
              destruct Hm as [Hm|Hm]; [by left|right; by apply Forall_insert].
        -- lia.
    + destruct (concat_insert_perm (owed P) _ _ _ Hw) as (rest & H1 & H2).
      pose proof (sum_list_insert (weight P) _ _ _ PDone Hw) as Hsum.
      unfold ctx_pools_ok, measure, body_indices in *.
      destruct (errOnce s) eqn:Ho; injection Hstep as <-; simpl in *.
      * split_and!.
        -- by apply Forall_insert.
        -- exists lost. split.
           ++ rewrite H2. rewrite <- Hperm, H1. done.
           ++ intros Hc H. inversion H as [|? ? _ H'].
              destruct (Hlost Hc H') as (_ & Hno & _).
              by pose proof (Forall_lookup_1 _ _ _ _ Hno Hw).
        -- lia.
      * split_and!.
        -- by apply Forall_insert.
        -- exists lost. split; [|done].
           rewrite H2. rewrite <- Hperm, H1. done.
        -- destruct (ctxErr s); lia.
  - unfold ctx_pools_ok, measure, body_indices in *.
    destruct (ctxErr s) eqn:Hctx; [done|]. injection Hstep as <-. simpl in *.
    split_and!; [done| |lia]. exists lost. by split.
Qed.

Lemma ForWithContext_run_pools st sched s :
  run (ForWithContext_step strategy N loopBody) sched
    (ForWithContext_init strategy nG N ctx_done st) = Some s ->
  ctx_pools_ok N P s.
Proof.
  apply (run_invariant _ _ (ctx_pools_ok N P)); [|apply ForWithContext_init_pools].
  intros l s1 s2 H1 H2. by eapply ForWithContext_step_pools.
Qed.

Lemma ForWithContext_progress s :
  joined s = false -> ∃ l, is_Some (ForWithContext_step strategy N loopBody l s).
Proof.
  intros Hj. apply forallb_is_done_false in Hj as (w & p & Hw & Hp).
  exists (Run w). simpl. rewrite Hw.
  destruct p as [g|g i|g i|err|]; try done.
  - by destruct (Next strategy g (mem s)) as [[i g'] m'].
  - by destruct (ctxErr s).
  - by destruct (loopBody (ctxErr s) i (Z.of_nat w) (caller s)) as [st' r].
  - by destruct (errOnce s).
Qed.

Lemma ForWithContext_partition_terminates st :
  terminates (ForWithContext_step strategy N loopBody)
    (ForWithContext_init strategy nG N ctx_done st).
Proof.
  exists (measure P (ForWithContext_init (E:=E) strategy nG N ctx_done st)).
  intros sched s Hrun. split.
  - pose proof (run_bounded _ _ (ctx_pools_ok N P) (measure P)
                  (λ l s1 s2 H1 H2, ForWithContext_step_pools l s1 s2 H2 H1)
                  _ _ _ (ForWithContext_init_pools st) Hrun). lia.
  - apply ForWithContext_progress.
Qed.

End ForWithContext_partition.

(** ** Indices are passed to the body at most once *)

Lemma seqZ_prefix_NoDup (l rest : list Z) (N : Z) :
  l ++ rest ≡ₚ seqZ 0 N -> NoDup l ∧ Forall (λ i, 0 ≤ i < N) l.
Proof.
  intros Hperm. split.
  - assert (NoDup (l ++ rest)) as Hnd by (rewrite Hperm; apply NoDup_seqZ).
    by apply NoDup_app in Hnd as [? _].
  - apply Forall_forall. intros i Hi.
    assert (i ∈ seqZ 0 N) as Hin by (rewrite <- Hperm; apply elem_of_app; by left).
    apply elem_of_seqZ in Hin. lia.
Qed.

(** Every call of the body in a goroutine's log is for an index below [N]. *)
Lemma iterations_body_lt {E} N ctx w (h : list (event E)) w' i r :
  iterations N ctx w h -> EvBody w' i r ∈ h -> i < N.
Proof.
  induction 1 as [|j h Hj Hit IH]; intros Hin; [by apply not_elem_of_nil in Hin|].
  apply elem_of_cons in Hin as [[= _ -> _]|Hin]; [done|].
  destruct ctx; simpl in Hin.
  - apply elem_of_cons in Hin as [?|Hin]; [done|].
    apply elem_of_cons in Hin as [?|Hin]; [done|]. auto.
  - apply elem_of_cons in Hin as [?|Hin]; [done|]. auto.
Qed.

Lemma claimed_body_lt {E} N ctx w j (h : list (event E)) w' i r :
  iterations N ctx w h -> EvBody w' i r ∈ claimed ctx w j h -> i < N.
Proof.
  intros Hit Hin. destruct ctx; simpl in Hin.
  - apply elem_of_cons in Hin as [?|Hin]; [done|].
    apply elem_of_cons in Hin as [?|Hin]; [done|]. by eapply iterations_body_lt.
  - apply elem_of_cons in Hin as [?|Hin]; [done|]. by eapply iterations_body_lt.
Qed.

Lemma log_at_body_lt {E strategy} N ctx w (p : pc E strategy) (h : list (event E)) w' i r :
  log_at N ctx w p h -> EvBody w' i r ∈ h -> i < N.
Proof.
  destruct p as [g|g j|g j|err|]; simpl.
  - apply iterations_body_lt.
  - intros (_ & _ & h' & -> & Hit) Hin.
    apply elem_of_cons in Hin as [?|Hin]; [done|]. by eapply iterations_body_lt.
  - intros (_ & h' & -> & Hit). by apply claimed_body_lt.
  - intros (j & h' & Hj & -> & Hit) Hin.
    apply elem_of_cons in Hin as [[= _ -> _]|Hin]; [done|]. by eapply claimed_body_lt.
  - intros Hs. destruct Hs as [j h' Hj Hit|j h' _ Hj Hit|err ran j h' Hj Hit]; intros Hin.
    + apply elem_of_cons in Hin as [?|Hin]; [done|]. by eapply iterations_body_lt.
    + apply elem_of_cons in Hin as [?|Hin]; [done|].
      apply elem_of_cons in Hin as [?|Hin]; [done|]. by eapply iterations_body_lt.
    + apply elem_of_cons in Hin as [?|Hin]; [done|].
      apply elem_of_cons in Hin as [[= _ -> _]|Hin]; [done|]. by eapply claimed_body_lt.
Qed.

Lemma logs_ok_body_lt {E St strategy} N ctx (s : state E St strategy) :
  logs_ok N ctx s ->
  (∀ ev w, ev ∈ trace s -> ev_grID ev = Some w -> (w < length (workers s))%nat) ->
  Forall (λ c, c.1 < N ∧ (c.2 < length (workers s))%nat) (body_calls (trace s)).
Proof.
  intros Hlog Hid. apply Forall_forall. intros [i w] Hin. simpl.
  apply body_calls_inv in Hin as [r Hr].
  pose proof (Hid _ w Hr eq_refl) as Hw. split; [|done].
  apply lookup_lt_is_Some in Hw as [p Hp].
  apply (log_at_body_lt N ctx w p (wlog w s) w i r); [by apply Hlog|].
  by apply elem_of_wlog.
Qed.

(** ** The cyclic strategy partitions the range *)

Lemma strided_cons from step N :
  0 < step -> from < N -> strided from step N = from :: strided (from + step) step N.
Proof.
  intros Hs Hlt. unfold strided.
  replace (N - from + step - 1) with (N - from - 1 + 1 * step) by lia.
  replace (N - (from + step) + step - 1) with (N - from - 1) by lia.
  rewrite Z.div_add by lia.
  assert (0 ≤ (N - from - 1) / step) by (apply Z.div_pos; lia).
  rewrite (seqZ_cons 0) by lia. rewrite fmap_cons. f_equal; [lia|].
  replace (Z.pred ((N - from - 1) / step + 1)) with ((N - from - 1) / step) by lia.
  change (Z.succ 0) with (1 + 0). rewrite <- fmap_add_seqZ, <- list_fmap_compose.
  apply list_fmap_ext. intros _ k _. simpl. lia.
Qed.

Lemma strided_nil from step N : 0 < step -> N ≤ from -> strided from step N = [].
Proof.
  intros Hs Hle. unfold strided. rewrite seqZ_nil; [done|].
  assert ((N - from + step - 1) / step < 1) by (apply Z.div_lt_upper_bound; lia). lia.
Qed.

Lemma cyclic_next_partitions nG N (g : cyclicCursor) m i g' m' :
  1 ≤ nG ->
  gen_ok (cyclicPools nG N) g -> Next cyclicStrategy g m = (i, g', m') ->
  gen_ok (cyclicPools nG N) g'
  ∧ if i <? N
    then pool_g (cyclicPools nG N) g ++ pool_m (cyclicPools nG N) m
           ≡ₚ i :: pool_g (cyclicPools nG N) g' ++ pool_m (cyclicPools nG N) m'
         ∧ (pool_m (cyclicPools nG N) m = [] -> pool_m (cyclicPools nG N) m' = [])
    else pool_g (cyclicPools nG N) g = [] ∧ pool_m (cyclicPools nG N) m = []
         ∧ pool_m (cyclicPools nG N) m' = [].
Proof.
  intros HnG [Hs Hl] Hnext. simpl in *. unfold cyclicNext in Hnext.
  destruct (Z.ltb_spec (next_index g) (limit g)); injection Hnext as <- <- <-; simpl.
  - split; [done|]. destruct (Z.ltb_spec (next_index g) N); [|lia]. split; [|done].
    rewrite !app_nil_r. by rewrite (strided_cons (next_index g)) by lia.
  - split; [done|]. rewrite Hl, Z.ltb_irrefl. split; [|done].
    apply strided_nil; lia.
Qed.

Example cyclic_partitions_3_7 : partitions 3 7 (cyclicPools 3 7).
Proof.
  split_and!.
  - done.
  - apply NoDup_Permutation.
    + by apply (bool_decide_unpack _).
    + apply NoDup_seqZ.
    + intros x. rewrite elem_of_seqZ.
      change (x ∈ [0; 3; 6; 1; 4; 2; 5] ↔ 0 ≤ x < 0 + 7).
      rewrite !elem_of_cons, elem_of_nil. lia.
  - intros g m i g' m'. by apply cyclic_next_partitions.
Qed.

(** ** Executions in which the caller's context is not cancelled *)

Lemma run_invariant_labels {E St strategy L}
    (step : L -> state E St strategy -> option (state E St strategy))
    (Q : L -> Prop) (I : state E St strategy -> Prop) :
  (∀ l s s', Q l -> I s -> step l s = Some s' -> I s') ->
  ∀ sched s0 s, Forall Q sched -> I s0 -> run step sched s0 = Some s -> I s.
Proof.
  intros Hstep sched. induction sched as [|l sched IH]; intros s0 s HQ H0 Hrun;
    simpl in Hrun.
  - by injection Hrun as <-.
  - destruct (step l s0) as [s1|] eqn:Hs; [|done].
    inversion HQ as [|? ? Hl HQ']. eauto.
Qed.

Lemma ForWithContext_step_trace {E St} strategy N
    (loopBody : bool -> Z -> Z -> St -> St * option E) l (s s' : state E St strategy) :
  ForWithContext_step strategy N loopBody l s = Some s' ->
  ∃ ev, trace s' = ev :: trace s
        ∧ match ev with
          | EvBody w i r =>
              l = Run w ∧ loopBody (ctxErr s) i (Z.of_nat w) (caller s) = (caller s', r)
              ∧ ctxErr s' = ctxErr s
          | EvOnce w err _ => workers s !! w = Some (POnce err)
          | EvStop _ _ => ctxErr s = true
          | EvCancel => l = Expire
          | _ => ctxErr s' = ctxErr s
          end.
Proof.
  intros Hstep. unfold ForWithContext_step in Hstep. destruct l as [w|].
  - destruct (workers s !! w) as [[g|g i|g i|err|]|] eqn:Hw; try done.
    + destruct (Next strategy g (mem s)) as [[i g'] m'] eqn:Hnext.
      injection Hstep as <-. by exists (EvNext w i).
    + destruct (ctxErr s) eqn:Hctx; injection Hstep as <-;
        [by exists (EvStop w i)|by exists (EvPass w i)].
    + destruct (loopBody (ctxErr s) i (Z.of_nat w) (caller s)) as [st' r] eqn:Hbody.
      injection Hstep as <-. by exists (EvBody w i r).
    + destruct (errOnce s); injection Hstep as <-; by eexists (EvOnce w err _).
  - destruct (ctxErr s); [done|]. injection Hstep as <-. by exists EvCancel.
Qed.

(** While the caller's context is not cancelled and no call of the body
    fails, the derived context is not cancelled either. *)
Lemma ForWithContext_run_uncancelled {E St} strategy nG N (P : Pools strategy)
    (loopBody : bool -> Z -> Z -> St -> St * option E) st sched
    (s : state E St strategy) :
  partitions nG N P ->
  (∀ c i grID st', (loopBody c i grID st').2 = None) ->
  Forall (λ l, is_Run l = true) sched ->
  run (ForWithContext_step strategy N loopBody) sched
    (ForWithContext_init strategy nG N false st) = Some s ->
  ctx_pools_ok N P s ∧ ctxErr s = false
  ∧ Forall (λ ev, is_failure ev = false ∧ is_stop ev = false) (trace s).
Proof.
  intros HP Hbody Hsched.
  apply (run_invariant_labels _ (λ l, is_Run l = true)
           (λ s, ctx_pools_ok N P s ∧ ctxErr s = false
                 ∧ Forall (λ ev, is_failure ev = false ∧ is_stop ev = false) (trace s)));
    [|done|].
  - intros l s1 s2 Hl (Hpools & Hctx & Hnf) Hstep.
    pose proof (ForWithContext_step_pools _ _ _ _ _ HP _ _ _ Hstep Hpools) as [Hpools' _].
    destruct (ForWithContext_step_trace _ _ _ _ _ _ Hstep) as (ev & Htr & Hev).
    split; [done|]. rewrite Htr.
    destruct ev as [w i|w i|w i|w i r|w err ran|].
    + split; [congruence|by constructor].
    + split; [congruence|by constructor].
    + congruence.
    + destruct Hev as (_ & Hcall & Hctx'). split; [congruence|]. constructor; [|done].
      specialize (Hbody (ctxErr s1) i (Z.of_nat w) (caller s1)).
      rewrite Hcall in Hbody. simpl in Hbody. by rewrite Hbody.
    + exfalso. destruct Hpools as (_ & lost & _ & Hlost).
      assert (Forall (λ ev : event E, is_failure ev = false) (trace s1)) as Hnf'
        by (eapply Forall_impl; [exact Hnf|by intros ? [? _]]).
      destruct (Hlost Hctx Hnf') as (_ & Hno & _).
      by pose proof (Forall_lookup_1 _ _ _ _ Hno Hev).
    + by subst l.
  - split_and!; [by apply ForWithContext_init_pools|done|done].
Qed.

(** ** Further properties of [For] *)

(** X1: with a custom strategy installed by [WithCustomStrategy] whose
    generators partition [0, N), at least one goroutine and a loop body
    that never fails, a call of [For] returns, and in every execution the
    body is called exactly once for each index of [0, N); the call returns
    nil. *)
Theorem For_custom_strategy_visits_each_index_once {E St} (custom : Strategy)
    (P : Pools custom) (d nG N : Z)
    (loopBody : Z -> Z -> St -> St * option E) (st : St) :
  partitions nG N P -> 1 ≤ nG ->
  (∀ i grID st', (loopBody i grID st').2 = None) ->
  let e := WithCustomStrategy custom (WithNumGoroutines nG (NewExecutor d)) in
  terminates (For_step (For_strategy e) N loopBody) (For_init (For_strategy e) nG N st)
  ∧ ∀ sched r, For e N loopBody st sched = Some r ->
      ∃ s, r = Return s ∧ body_indices (trace s) ≡ₚ seqZ 0 N ∧ loopErr s = None.
Proof.
  intros HP HnG Hbody e. subst e. split.
  - by apply (For_terminates _ _ _ _ P).
  - intros sched r Hfor.
    apply For_outcome in Hfor as [[Hneg _]|(_ & s & -> & Hj & Hrun)];
      [simpl in Hneg; lia|].
    change (numGoroutines _) with nG in Hrun.
    change (For_strategy _) with custom in *.
    pose proof (For_run_no_failure _ _ _ _ _ _ _ Hbody Hrun) as Hnf.
    pose proof (For_run_inv _ _ _ _ _ _ _ Hrun) as (_ & Ho & _ & _).
    exists s. split_and!; [done| |].
    + by eapply For_complete_indices.
    + unfold once_ok in Ho. destruct (loopErr s) as [err|]; [|done].
      destruct Ho as (_ & w & i & post & pre & Htr & _ & _ & Hin).
      assert (EvBody w i (Some err) ∈ trace s) as Hin'
        by (rewrite Htr; apply elem_of_app; right; by right).
      by pose proof (proj1 (Forall_forall _ _) Hnf _ Hin').
Qed.

Lemma For_custom_strategy_visits_each_index_once_witness :
  let e := example_cyclic3 in
  terminates (For_step (For_strategy e) 7 record_index) (For_init (For_strategy e) 3 7 [])
  ∧ ∀ sched r, For e 7 record_index [] sched = Some r ->
      ∃ s, r = Return s ∧ body_indices (trace s) ≡ₚ seqZ 0 7 ∧ loopErr s = None.
Proof.
  apply (For_custom_strategy_visits_each_index_once cyclicStrategy (cyclicPools 3 7)
           8 3 7 record_index []); [apply cyclic_partitions_3_7|lia|reflexivity].
Defined.

(** X2: under a strategy whose generators partition [0, N), whatever the
    loop body returns, a call of [For] returns under every schedule, and at
    every moment of every execution no index has been passed to the body
    twice and every index passed is in [0, N). *)
Theorem For_calls_each_index_at_most_once {E St} (e : Executor) (N : Z)
    (P : Pools (For_strategy e))
    (loopBody : Z -> Z -> St -> St * option E) (st : St) :
  partitions (numGoroutines e) N P ->
  terminates (For_step (For_strategy e) N loopBody)
    (For_init (For_strategy e) (numGoroutines e) N st)
  ∧ ∀ sched s,
      run (For_step (For_strategy e) N loopBody) sched
        (For_init (For_strategy e) (numGoroutines e) N st) = Some s ->
      NoDup (body_indices (trace s)) ∧ Forall (λ i, 0 ≤ i < N) (body_indices (trace s)).
Proof.
  intros HP. split.
  - by apply (For_terminates _ _ _ _ P).
  - intros sched s Hrun.
    pose proof (For_run_pools _ _ _ _ P HP _ _ _ Hrun) as (_ & lost & Hperm & _).
    by eapply seqZ_prefix_NoDup.
Qed.

Lemma For_calls_each_index_at_most_once_witness :
  terminates (For_step (For_strategy example_atomic2) 3 record_and_fail)
    (For_init (For_strategy example_atomic2) (numGoroutines example_atomic2) 3 [])
  ∧ ∀ sched s,
      run (For_step (For_strategy example_atomic2) 3 record_and_fail) sched
        (For_init (For_strategy example_atomic2) (numGoroutines example_atomic2) 3 [])
      = Some s ->
      NoDup (body_indices (trace s)) ∧ Forall (λ i, 0 ≤ i < 3) (body_indices (trace s)).
Proof.
  apply (For_calls_each_index_at_most_once example_atomic2 3 (atomicPools 3)
           record_and_fail []).
  apply atomic_partitions.
Defined.

(** The results logged are those of the body. *)
Lemma For_run_results {E St} strategy nG N (loopBody : Z -> Z -> St -> St * option E)
    (f : Z -> option E) st sched (s : state E St strategy) :
  (∀ i grID st', (loopBody i grID st').2 = f i) ->
  run (For_step strategy N loopBody) sched (For_init strategy nG N st) = Some s ->
  ∀ w i r, EvBody w i r ∈ trace s -> r = f i.
Proof.
  intros Hf.
  apply (run_invariant _ _ (λ s, ∀ w i r, EvBody w i r ∈ trace s -> r = f i)).
  - intros l s1 s2 H1 Hstep w i r Hin.
    destruct (For_step_trace _ _ _ _ _ _ Hstep) as (ev & Htr & _ & _ & _ & Hev).
    rewrite Htr in Hin. apply elem_of_cons in Hin as [<-|Hin]; [|eauto].
    specialize (Hf i (Z.of_nat l) (caller s1)). rewrite Hev in Hf. done.
  - intros w i r Hin. by apply not_elem_of_nil in Hin.
Qed.

Lemma serial_loop_fails {E St} (loopBody : Z -> Z -> St -> St * option E)
    (f : Z -> option E) (n : nat) (i : Z) (st : St) (tr : list (event E)) :
  (∀ j grID st', (loopBody j grID st').2 = f j) ->
  (serial_loop loopBody n i st tr).1.1 = None
  ↔ ∀ j, i ≤ j < i + Z.of_nat n -> f j = None.
Proof.
  intros Hf. revert i st tr. induction n as [|n IH]; intros i st tr.
  - simpl. split; [intros _ j Hj; lia|done].
  - cbn [serial_loop]. pose proof (Hf i 0 st) as Hi.
    destruct (loopBody i 0 st) as [st1 [err|]]; simpl in Hi.
    + simpl. split; [done|]. intros Hall. rewrite Hi. apply Hall. lia.
    + rewrite IH. split.
      * intros Hall j Hj. destruct (decide (j = i)) as [->|Hne]; [done|].
        apply Hall. lia.
      * intros Hall j Hj. apply Hall. lia.
Qed.

(** X3: when the result of the loop body depends on the index only, a
    call of [For] with at least one goroutine under a strategy that
    partitions [0, N) returns nil exactly when no index of [0, N) fails,
    that is exactly when [SerialExecutor] returns nil; and an error it
    returns is the error of some index of [0, N). *)
Theorem For_fails_iff_some_index_fails {E St} (e : Executor) (N : Z)
    (P : Pools (For_strategy e))
    (loopBody : Z -> Z -> St -> St * option E) (f : Z -> option E) (st : St)
    (sched : list nat) (s : state E St (For_strategy e)) :
  partitions (numGoroutines e) N P -> 1 ≤ numGoroutines e ->
  (∀ i grID st', (loopBody i grID st').2 = f i) ->
  For e N loopBody st sched = Some (Return s) ->
  (loopErr s = None ↔ ∀ i, 0 ≤ i < N -> f i = None)
  ∧ (∀ err, loopErr s = Some err -> ∃ i, 0 ≤ i < N ∧ f i = Some err)
  ∧ (loopErr s = None ↔ (SerialExecutor_For N loopBody st).1.1 = None).
Proof.
  intros HP HnG Hf Hfor.
  apply For_outcome in Hfor as [[_ [=]]|(_ & s' & [= <-] & Hj & Hrun)].
  pose proof (For_run_inv _ _ _ _ _ _ _ Hrun) as (Hlog & Ho & _ & _).
  pose proof (For_run_grIDs _ _ _ _ _ _ _ Hrun) as Hid.
  pose proof (For_run_results _ _ _ _ f _ _ _ Hf Hrun) as Hres.
  pose proof (For_run_pools _ _ _ _ P HP _ _ _ Hrun) as (_ & lost & Hperm & _).
  apply seqZ_prefix_NoDup in Hperm as [_ Hrange].
  assert (∀ w i r, EvBody w i r ∈ trace s -> 0 ≤ i < N) as Hin_range.
  { intros w i r Hin. apply elem_of_body_calls in Hin.
    apply (proj1 (Forall_forall _ _) Hrange).
    unfold body_indices. apply list_elem_of_fmap. by exists (i, w). }
  assert (∀ err, loopErr s = Some err -> ∃ i, 0 ≤ i < N ∧ f i = Some err) as Hsome.
  { intros err Herr. unfold once_ok in Ho. rewrite Herr in Ho.
    destruct Ho as (_ & w & i & post & pre & Htr & _ & _ & Hin).
    assert (EvBody w i (Some err) ∈ trace s) as Hin'
      by (rewrite Htr; apply elem_of_app; right; by right).
    exists i. split; [by eapply Hin_range|]. symmetry. by eapply Hres. }
  assert (loopErr s = None ↔ ∀ i, 0 ≤ i < N -> f i = None) as Hiff.
  { split.
    - intros Hnone i Hi. unfold once_ok in Ho. rewrite Hnone in Ho.
      destruct Ho as [_ Hno].
      pose proof (joined_failures_offered _ N false s Hlog Hj Hid Hno) as Hnf.
      pose proof (For_complete_indices _ _ _ P _ _ _ _ HP HnG Hrun Hj Hnf) as Hperm.
      assert (i ∈ body_indices (trace s)) as Hin
        by (rewrite Hperm; apply elem_of_seqZ; lia).
      unfold body_indices in Hin. apply list_elem_of_fmap in Hin as ([i' w] & -> & Hin).
      apply body_calls_inv in Hin as [r Hr]. simpl.
      rewrite <- (Hres _ _ _ Hr).
      pose proof (proj1 (Forall_forall _ _) Hnf _ Hr) as Hq. by destruct r.
    - intros Hall. destruct (loopErr s) as [err|] eqn:Herr; [|done].
      destruct (Hsome err eq_refl) as (i & Hi & Hfi). rewrite (Hall i Hi) in Hfi. done. }
  split_and!; [done|done|].
  rewrite Hiff. unfold SerialExecutor_For. rewrite (serial_loop_fails loopBody f) by done.
  split; intros Hall i Hi; apply Hall; lia.
Qed.

Lemma For_fails_iff_some_index_fails_witness :
  ∃ s, For example_default2 4 fail_at_odd () [1; 1; 1; 1; 1; 0; 0; 0; 0; 0]%nat
       = Some (Return s)
       ∧ loopErr s = Some 3
       ∧ (SerialExecutor_For 4 fail_at_odd ()).1.1 = Some 1
       ∧ (loopErr s = None ↔ ∀ i, 0 ≤ i < 4 -> (if Z.odd i then Some i else None) = None)
       ∧ (∀ err, loopErr s = Some err ->
            ∃ i, 0 ≤ i < 4 ∧ (if Z.odd i then Some i else None) = Some err)
       ∧ (loopErr s = None ↔ (SerialExecutor_For 4 fail_at_odd ()).1.1 = None).
Proof.
  assert (observe (For example_default2 4 fail_at_odd ()
                     [1; 1; 1; 1; 1; 0; 0; 0; 0; 0]%nat)
          = Some (Some (Some 3, (),
                        [EvOnce 0 1 false; EvBody 0 1 (Some 1); EvNext 0 1;
                         EvBody 0 0 None; EvNext 0 0; EvOnce 1 3 true;
                         EvBody 1 3 (Some 3); EvNext 1 3; EvBody 1 2 None; EvNext 1 2])))
    as Hobs by reflexivity.
  destruct (For example_default2 4 fail_at_odd () [1; 1; 1; 1; 1; 0; 0; 0; 0; 0]%nat)
    as [[|s]|] eqn:Hfor; [discriminate Hobs| |discriminate Hobs].
  exists s. split; [reflexivity|]. split; [by injection Hobs|]. split; [reflexivity|].
  apply (For_fails_iff_some_index_fails example_default2 4 (contiguousPools 4)
           fail_at_odd (λ i, if Z.odd i then Some i else None) ()
           [1; 1; 1; 1; 1; 0; 0; 0; 0; 0]%nat s);
    [apply contiguous_partitions; simpl; lia|simpl; lia|reflexivity|exact Hfor].
Defined.

(** X4: whatever the strategy, the loop body and the schedule, [For] and
    [ForWithContext] call the body only for indices below [N], the loop
    condition [i < N] being the only test of an index, and only with
    goroutine ids below [numGoroutines]. *)
Theorem loop_body_arguments_in_range {E St} (e : Executor) (N : Z) (st : St) :
  (∀ (loopBody : Z -> Z -> St -> St * option E) sched s,
     run (For_step (For_strategy e) N loopBody) sched
       (For_init (For_strategy e) (numGoroutines e) N st) = Some s ->
     Forall (λ c, c.1 < N ∧ (c.2 < Z.to_nat (numGoroutines e))%nat)
       (body_calls (trace s)))
  ∧ (∀ (loopBody : bool -> Z -> Z -> St -> St * option E) ctx_done sched s,
       run (ForWithContext_step (ForWithContext_strategy e) N loopBody) sched
         (ForWithContext_init (E:=E) (ForWithContext_strategy e) (numGoroutines e) N
            ctx_done st) = Some s ->
       Forall (λ c, c.1 < N ∧ (c.2 < Z.to_nat (numGoroutines e))%nat)
         (body_calls (trace s))).
Proof.
  split.
  - intros loopBody sched s Hrun.
    pose proof (For_run_inv _ _ _ _ _ _ _ Hrun) as (Hlog & _ & _ & Hlen).
    rewrite <- Hlen. apply (logs_ok_body_lt N false); [done|].
    by eapply For_run_grIDs.
  - intros loopBody ctx_done sched s Hrun.
    pose proof (ForWithContext_run_inv _ _ _ _ _ _ _ _ Hrun) as (Hlog & _ & _ & Hlen & Hid).
    rewrite <- Hlen. by apply (logs_ok_body_lt N true).
Qed.

(** ** Further properties of [ForWithContext] *)

(** X5: under a strategy whose generators partition [0, N), whatever the
    loop body returns and whenever the caller's context is cancelled, a
    call of [ForWithContext] returns under every schedule, and at every
    moment of every execution no index has been passed to the body twice
    and every index passed is in [0, N). *)
Theorem ForWithContext_terminates_at_most_once {E St} (e : Executor) (ctx_done : bool)
    (N : Z) (P : Pools (ForWithContext_strategy e))
    (loopBody : bool -> Z -> Z -> St -> St * option E) (st : St) :
  partitions (numGoroutines e) N P ->
  terminates (ForWithContext_step (ForWithContext_strategy e) N loopBody)
    (ForWithContext_init (ForWithContext_strategy e) (numGoroutines e) N ctx_done st)
  ∧ ∀ sched s,
      run (ForWithContext_step (ForWithContext_strategy e) N loopBody) sched
        (ForWithContext_init (ForWithContext_strategy e) (numGoroutines e) N ctx_done st)
      = Some s ->
      NoDup (body_indices (trace s)) ∧ Forall (λ i, 0 ≤ i < N) (body_indices (trace s)).
Proof.
  intros HP. split.
  - by apply (ForWithContext_partition_terminates _ _ _ _ _ P).
  - intros sched s Hrun.
    pose proof (ForWithContext_run_pools _ _ _ _ _ P HP _ _ _ Hrun)
      as (_ & lost & Hperm & _).
    by eapply seqZ_prefix_NoDup.
Qed.

Lemma ForWithContext_terminates_at_most_once_witness :
  terminates (ForWithContext_step (ForWithContext_strategy example_cyclic3) 7
                fail_at_zero_ctx)
    (ForWithContext_init (ForWithContext_strategy example_cyclic3)
       (numGoroutines example_cyclic3) 7 false ())
  ∧ ∀ sched s,
      run (ForWithContext_step (ForWithContext_strategy example_cyclic3) 7
             fail_at_zero_ctx) sched
        (ForWithContext_init (ForWithContext_strategy example_cyclic3)
           (numGoroutines example_cyclic3) 7 false ())
      = Some s ->
      NoDup (body_indices (trace s)) ∧ Forall (λ i, 0 ≤ i < 7) (body_indices (trace s)).
Proof.
  apply (ForWithContext_terminates_at_most_once example_cyclic3 false 7 (cyclicPools 3 7)
           fail_at_zero_ctx ()).
  apply cyclic_partitions_3_7.
Defined.

(** X6: when the caller's context is not cancelled before or during the
    call and the loop body never fails, a call of [ForWithContext] with
    at least one goroutine under a strategy that partitions [0, N) calls
    the body exactly once for each index of [0, N), never finds the
    derived context cancelled, and returns nil. *)
Theorem ForWithContext_visits_each_index_once {E St} (e : Executor) (N : Z)
    (P : Pools (ForWithContext_strategy e))
    (loopBody : bool -> Z -> Z -> St -> St * option E) (st : St)
    (sched : list label) (s : state E St (ForWithContext_strategy e)) :
  partitions (numGoroutines e) N P -> 1 ≤ numGoroutines e ->
  (∀ c i grID st', (loopBody c i grID st').2 = None) ->
  Forall (λ l, is_Run l = true) sched ->
  ForWithContext e false N loopBody st sched = Some (Return s) ->
  body_indices (trace s) ≡ₚ seqZ 0 N
  ∧ Forall (λ ev, is_stop ev = false) (trace s)
  ∧ ctxErr s = false ∧ loopErr s = None.
Proof.
  intros HP HnG Hbody Hsched Hfor.
  apply ForWithContext_outcome in Hfor as [[_ [=]]|(_ & s' & [= <-] & Hj & Hrun)].
  pose proof (ForWithContext_run_uncancelled _ _ _ P _ _ _ _ HP Hbody Hsched Hrun)
    as ((_ & lost & Hperm & Hlost) & Hctx & Hquiet).
  assert (Forall (λ ev : event E, is_failure ev = false) (trace s)) as Hnf
    by (eapply Forall_impl; [exact Hquiet|by intros ? [? _]]).
  pose proof (ForWithContext_run_inv _ _ _ _ _ _ _ _ Hrun) as (_ & Ho & _ & Hlen & _).
  destruct (Hlost Hctx Hnf) as (-> & _ & Hm).
  rewrite (joined_owed P s Hj) in Hperm. simpl in Hperm. rewrite app_nil_r in Hperm.
  split_and!.
  - destruct Hm as [Hm|Hnd].
    + rewrite Hm in Hperm. by rewrite app_nil_r in Hperm.
    + exfalso. destruct (lookup_lt_is_Some_2 (workers s) 0%nat) as [p Hp]; [lia|].
      pose proof (Forall_lookup_1 _ _ _ _ Hnd Hp) as Hd.
      rewrite (joined_done _ _ _ _ Hj Hp) in Hd. done.
  - eapply Forall_impl; [exact Hquiet|by intros ? [_ ?]].
  - done.
  - unfold once_ok in Ho. destruct (loopErr s) as [err|]; [|done].
    destruct Ho as (_ & w & i & post & pre & Htr & _ & _ & Hin).
    assert (EvBody w i (Some err) ∈ trace s) as Hin'
      by (rewrite Htr; apply elem_of_app; right; by right).
    by pose proof (proj1 (Forall_forall _ _) Hnf _ Hin').
Qed.

Lemma ForWithContext_visits_each_index_once_witness :
  ∃ s, ForWithContext example_atomic2 false 3 record_index_ctx []
         [Run 0; Run 0; Run 0; Run 1; Run 1; Run 1; Run 0; Run 0; Run 0; Run 0; Run 1]%nat
       = Some (Return s)
       ∧ caller s = [2; 1; 0]
       ∧ body_indices (trace s) ≡ₚ seqZ 0 3
       ∧ Forall (λ ev, is_stop ev = false) (trace s)
       ∧ ctxErr s = false ∧ loopErr s = None.
Proof.
  assert (observe (ForWithContext example_atomic2 false 3 record_index_ctx []
                     [Run 0; Run 0; Run 0; Run 1; Run 1; Run 1; Run 0; Run 0; Run 0;
                      Run 0; Run 1]%nat)
          = Some (Some (None, [2; 1; 0],
                        [EvNext 1 4; EvNext 0 3; EvBody 0 2 None; EvPass 0 2; EvNext 0 2;
                         EvBody 1 1 None; EvPass 1 1; EvNext 1 1; EvBody 0 0 None;
                         EvPass 0 0; EvNext 0 0])))
    as Hobs by reflexivity.
  destruct (ForWithContext example_atomic2 false 3 record_index_ctx [] _)
    as [[|s]|] eqn:Hfor; [discriminate Hobs| |discriminate Hobs].
  exists s. split; [reflexivity|]. split; [by injection Hobs|].
  apply (ForWithContext_visits_each_index_once example_atomic2 3 (atomicPools 3)
           record_index_ctx []
           [Run 0; Run 0; Run 0; Run 1; Run 1; Run 1; Run 0; Run 0; Run 0; Run 0; Run 1]%nat
           s);
    [apply atomic_partitions|simpl; lia|reflexivity|by repeat constructor|exact Hfor].
Defined.

(** ** Calls of the body after the cancellation *)

(** After the context is cancelled a goroutine calls the body at most
    once more: such a call is the first step the goroutine takes. *)
Lemma body_after_cancel_last {E St strategy} nG N ctx_done (s : state E St strategy)
    post pre w a i r b :
  ForWithContext_inv nG N ctx_done s ->
  (∀ v, body_checked v (wlog v s)) ->
  trace s = post ++ pre ->
  Exists (λ ev, is_cancelling ev = true) pre ->
  filter (λ ev, by_grID w ev) post = a ++ EvBody w i r :: b ->
  b = [].
Proof.
  intros (_ & _ & [_ Hc2] & _ & _) Hchk Htr Hex Hfil.
  assert (wlog w s = a ++ EvBody w i r :: (b ++ filter (λ ev, by_grID w ev) pre)) as Hw.
  { unfold wlog. rewrite Htr, filter_app, Hfil, <- app_assoc. done. }
  destruct (Hchk w _ _ _ _ Hw) as [pre' Hpre].
  destruct b as [|ev b]; [done|]. exfalso. simpl in Hpre. injection Hpre as -> _.
  assert (EvPass w i ∈ post) as Hin.
  { assert (EvPass w i ∈ filter (λ ev, by_grID w ev) post) as Hin
      by (rewrite Hfil; apply elem_of_app; right; right; left).
    by apply list_elem_of_filter in Hin as [_ Hin]. }
  apply list_elem_of_split in Hin as (p1 & p2 & ->).
  rewrite <- app_assoc in Htr. simpl in Htr.
  destruct (Hc2 _ _ _ _ Htr) as [_ Hall]. apply Forall_app in Hall as [_ Hall].
  apply Exists_exists in Hex as (ev & Hin & Hev).
  pose proof (proj1 (Forall_forall _ _) Hall _ Hin). congruence.
Qed.

Lemma filter_by_grID_body {E} (tr : list (event E)) w i r :
  EvBody w i r ∈ tr -> ∃ a b, filter (λ ev, by_grID w ev) tr = a ++ EvBody w i r :: b.
Proof.
  intros Hin. apply list_elem_of_split.
  apply list_elem_of_filter. split; [|done]. unfold by_grID. simpl.
  by rewrite Nat.eqb_refl.
Qed.

Lemma body_grIDs_NoDup {E} (tr : list (event E)) :
  (∀ w a i r b, filter (λ ev, by_grID w ev) tr = a ++ EvBody w i r :: b -> b = []) ->
  NoDup (body_calls tr).*2.
Proof.
  induction tr as [|ev tr IH]; intros Hlast; [constructor|].
  assert (NoDup (body_calls tr).*2) as Hnd.
  { apply IH. intros w a i r b Hfil.
    destruct (decide (by_grID w ev)) as [Hby|Hby].
    - apply (Hlast w (ev :: a) i r b). by rewrite filter_cons_True, Hfil.
    - apply (Hlast w a i r b). by rewrite filter_cons_False. }
  destruct ev as [| | |w i r| |]; simpl; try done.
  constructor; [|done]. intros Hin.
  apply list_elem_of_fmap in Hin as ([i' w'] & Heq & Hin). simpl in Heq. subst w'.
  apply body_calls_inv in Hin as [r' Hr'].
  destruct (filter_by_grID_body tr w i' r' Hr') as (a & b & Hfil).
  assert (a ++ EvBody w i' r' :: b = []) as Hnil; [|by destruct a].
  apply (Hlast w [] i r). rewrite filter_cons_True, Hfil; [done|].
  unfold by_grID. simpl. by rewrite Nat.eqb_refl.
Qed.

Lemma NoDup_below_length (l : list nat) (n : nat) :
  NoDup l -> Forall (λ w, (w < n)%nat) l -> (length l ≤ n)%nat.
Proof.
  intros Hnd Hall. rewrite <- (length_seq n 0). apply submseteq_length.
  apply NoDup_submseteq; [done|]. intros w Hw. apply elem_of_seq.
  pose proof (proj1 (Forall_forall _ _) Hall _ Hw) as Hlt. simpl in Hlt. lia.
Qed.

(** A call of [errOnce.Do] is the last step of its goroutine. *)
Lemma iterations_no_once {E} N ctx w (h : list (event E)) :
  iterations N ctx w h -> Forall (λ ev, is_once ev = false) h.
Proof.
  intros Hit. apply iterations_quiet in Hit. eapply Forall_impl; [exact Hit|].
  by intros ev (_ & ? & _).
Qed.

Lemma log_at_once_last {E strategy} N ctx w (p : pc E strategy) (h : list (event E))
    a err ran b :
  log_at N ctx w p h -> h = a ++ EvOnce w err ran :: b -> a = [].
Proof.
  intros Hl Heq.
  assert (∀ h', Forall (λ ev : event E, is_once ev = false) h' ->
            h' = a ++ EvOnce w err ran :: b -> False) as Hno.
  { intros h' Hall ->. apply Forall_app in Hall as [_ Hall]. by inversion Hall. }
  destruct p as [g|g i|g i|err'|]; simpl in Hl.
  - exfalso. eapply Hno; [by eapply iterations_no_once|done].
  - destruct Hl as (_ & _ & h' & -> & Hit). exfalso.
    eapply (Hno (EvNext w i :: h')); [|done].
    constructor; [done|]. by eapply iterations_no_once.
  - destruct Hl as (_ & h' & -> & Hit). exfalso.
    eapply (Hno (claimed ctx w i h')); [|done].
    destruct ctx; simpl; repeat (constructor; [done|]); by eapply iterations_no_once.
  - destruct Hl as (i & h' & _ & -> & Hit). exfalso.
    eapply (Hno (EvBody w i (Some err') :: claimed ctx w i h')); [|done].
    destruct ctx; simpl; repeat (constructor; [done|]); by eapply iterations_no_once.
  - destruct Hl as [i h' Hi Hit|i h' _ Hi Hit|err' ran' i h' Hi Hit].
    + exfalso. eapply (Hno (EvNext w i :: h')); [|done].
      constructor; [done|]. by eapply iterations_no_once.
    + exfalso. eapply (Hno (EvStop w i :: EvNext w i :: h')); [|done].
      repeat (constructor; [done|]). by eapply iterations_no_once.
    + destruct a as [|ev a]; [done|]. exfalso. simpl in Heq. injection Heq as _ Heq.
      assert (Forall (λ ev : event E, is_once ev = false)
                (EvBody w i (Some err') :: claimed ctx w i h')) as Hall
        by (destruct ctx; simpl; repeat (constructor; [done|]);
            by eapply iterations_no_once).
      rewrite Heq in Hall. apply Forall_app in Hall as [_ Hall]. by inversion Hall.
Qed.

(** X7: in [ForWithContext], after the derived context is cancelled, by
    the caller's context or by the first call of [errOnce.Do], every
    goroutine calls the loop body at most once more, so that at most
    [numGoroutines] calls follow the cancellation; the goroutine whose
    error cancelled the context makes none of them. *)
Theorem ForWithContext_cancellation_bounds_calls {E St} (e : Executor) (ctx_done : bool)
    (N : Z) (loopBody : bool -> Z -> Z -> St -> St * option E) (st : St)
    (sched : list label) (s : state E St (ForWithContext_strategy e)) :
  run (ForWithContext_step (ForWithContext_strategy e) N loopBody) sched
    (ForWithContext_init (ForWithContext_strategy e) (numGoroutines e) N ctx_done st)
  = Some s ->
  ∀ post ev pre, trace s = post ++ ev :: pre -> is_cancelling ev = true ->
    NoDup (body_calls post).*2
    ∧ (length (body_calls post) ≤ Z.to_nat (numGoroutines e))%nat
    ∧ (∀ w err, ev = EvOnce w err true -> w ∉ (body_calls post).*2).
Proof.
  intros Hrun post ev pre Htr Hev.
  pose proof (ForWithContext_run_inv _ _ _ _ _ _ _ _ Hrun) as Hinv.
  pose proof (ForWithContext_logs _ _ _ _ _ _ _ _ Hrun) as Hlogs.
  assert (NoDup (body_calls post).*2) as Hnd.
  { apply body_grIDs_NoDup. intros w a i r b Hfil.
    apply (body_after_cancel_last _ N ctx_done s post (ev :: pre) w a i r b Hinv);
      [intros v; apply Hlogs|done|by left|done]. }
  destruct Hinv as (Hlog & _ & _ & Hlen & Hid).
  split_and!; [done| |].
  - rewrite <- (length_fmap snd), <- Hlen. apply NoDup_below_length; [done|].
    apply Forall_forall. intros w Hw.
    apply list_elem_of_fmap in Hw as ([i w'] & -> & Hin). simpl.
    apply body_calls_inv in Hin as [r Hr].
    apply (Hid (EvBody w' i r)); [|done]. rewrite Htr. apply elem_of_app. by left.
  - intros w err -> Hin.
    apply list_elem_of_fmap in Hin as ([i w'] & Heq & Hin). simpl in Heq. subst w'.
    apply body_calls_inv in Hin as [r Hr].
    destruct (filter_by_grID_body post w i r Hr) as (a & b & Hfil).
    assert (w < length (workers s))%nat as Hw.
    { apply (Hid (EvOnce w err true)); [|done].
      rewrite Htr. apply elem_of_app. right. left. }
    apply lookup_lt_is_Some in Hw as [p Hp]. pose proof (Hlog _ _ Hp) as Hl.
    assert (wlog w s = (a ++ EvBody w i r :: b)
                         ++ EvOnce w err true :: filter (λ ev, by_grID w ev) pre) as Hw.
    { unfold wlog. rewrite Htr, filter_app, Hfil. f_equal.
      rewrite filter_cons_True; [done|]. unfold by_grID. simpl. by rewrite Nat.eqb_refl. }
    pose proof (log_at_once_last _ _ _ _ _ _ _ _ _ Hl Hw) as Hnil. by destruct a.
Qed.

Lemma ForWithContext_cancellation_bounds_calls_witness :
  ∃ s, run (ForWithContext_step (ForWithContext_strategy example_default4) 4
              fail_at_zero_ctx)
         [Run 0; Run 0; Run 1; Run 1; Run 0; Run 0; Run 1; Run 1; Run 2; Run 2; Run 3;
          Run 3]%nat
         (ForWithContext_init (ForWithContext_strategy example_default4)
            (numGoroutines example_default4) 4 false ()) = Some s
       ∧ trace s = [EvStop 3 3; EvNext 3 3; EvStop 2 2; EvNext 2 2; EvNext 1 4;
                    EvBody 1 1 None]
                   ++ EvOnce 0 0 true
                   :: [EvBody 0 0 (Some 0); EvPass 1 1; EvNext 1 1; EvPass 0 0; EvNext 0 0]
       ∧ NoDup (body_calls (E:=Z) [EvStop 3 3; EvNext 3 3; EvStop 2 2; EvNext 2 2;
                                   EvNext 1 4; EvBody 1 1 None]).*2
       ∧ (length (body_calls (E:=Z) [EvStop 3 3; EvNext 3 3; EvStop 2 2; EvNext 2 2;
                                     EvNext 1 4; EvBody 1 1 None])
          ≤ Z.to_nat (numGoroutines example_default4))%nat
       ∧ (∀ w err, EvOnce 0 0 true = EvOnce w err true ->
            w ∉ (body_calls (E:=Z) [EvStop 3 3; EvNext 3 3; EvStop 2 2; EvNext 2 2;
                                    EvNext 1 4; EvBody 1 1 None]).*2).
Proof.
  assert (observe_state
            <$> run (ForWithContext_step (ForWithContext_strategy example_default4) 4
                       fail_at_zero_ctx)
                  [Run 0; Run 0; Run 1; Run 1; Run 0; Run 0; Run 1; Run 1; Run 2; Run 2;
                   Run 3; Run 3]%nat
                  (ForWithContext_init (ForWithContext_strategy example_default4)
                     (numGoroutines example_default4) 4 false ())
          = Some (true, Some 0, (),
                  [EvStop 3 3; EvNext 3 3; EvStop 2 2; EvNext 2 2; EvNext 1 4;
                   EvBody 1 1 None; EvOnce 0 0 true; EvBody 0 0 (Some 0); EvPass 1 1;
                   EvNext 1 1; EvPass 0 0; EvNext 0 0])) as Hobs by reflexivity.
  destruct (run _ _ _) as [s|] eqn:Hrun; [|discriminate Hobs].
  assert (trace s = [EvStop 3 3; EvNext 3 3; EvStop 2 2; EvNext 2 2; EvNext 1 4;
                     EvBody 1 1 None]
                    ++ EvOnce 0 0 true
                    :: [EvBody 0 0 (Some 0); EvPass 1 1; EvNext 1 1; EvPass 0 0;
                        EvNext 0 0]) as Htr by (by injection Hobs).
  exists s. split; [reflexivity|]. split; [exact Htr|].
  by apply (ForWithContext_cancellation_bounds_calls _ _ _ _ _ _ _ Hrun _ _ _ Htr).
Defined.

(** X8: the error a call of [ForWithContext] returns is the one of the
    first call of [errOnce.Do], which also cancelled the derived context,
    and it was returned by a call of the loop body before; the call
    returns nil exactly when no call of the body failed, also when the
    caller's context was cancelled and indices were skipped. *)
Theorem ForWithContext_returns_first_captured_error {E St} (e : Executor)
    (ctx_done : bool) (N : Z) (loopBody : bool -> Z -> Z -> St -> St * option E)
    (st : St) (sched : list label) (s : state E St (ForWithContext_strategy e)) :
  ForWithContext e ctx_done N loopBody st sched = Some (Return s) ->
  (loopErr s = None ↔ Forall (λ ev, is_failure ev = false) (trace s))
  ∧ (∀ err, loopErr s = Some err ->
       ctxErr s = true
       ∧ ∃ w i post pre,
           trace s = post ++ EvOnce w err true :: pre
           ∧ Forall (λ ev, is_once ev = false) pre
           ∧ Forall (λ ev, is_capture ev = false) post
           ∧ EvBody w i (Some err) ∈ pre).
Proof.
  intros Hfor.
  apply ForWithContext_outcome in Hfor as [[_ [=]]|(_ & s' & [= <-] & Hj & Hrun)].
  pose proof (ForWithContext_run_inv _ _ _ _ _ _ _ _ Hrun)
    as (Hlog & Ho & [Hc1 _] & _ & Hid).
  unfold once_ok in Ho. destruct (loopErr s) as [err|].
  - destruct Ho as (_ & w & i & post & pre & Htr & Hpre & Hpost & Hin). split.
    + split; [done|]. intros Hnf. exfalso.
      assert (EvBody w i (Some err) ∈ trace s) as Hin'
        by (rewrite Htr; apply elem_of_app; right; by right).
      by pose proof (proj1 (Forall_forall _ _) Hnf _ Hin').
    + intros err' [= <-]. split; [|by exists w, i, post, pre].
      destruct (ctxErr s) eqn:Hctx; [done|]. destruct (Hc1 eq_refl) as [_ Hall].
      rewrite Htr in Hall. apply Forall_app in Hall as [_ Hall]. by inversion Hall.
  - destruct Ho as [_ Hno]. split; [|done]. split; [|done]. intros _.
    by apply (joined_failures_offered _ N true).
Qed.

Lemma ForWithContext_returns_first_captured_error_witness :
  ∃ s, ForWithContext example_default2 false 4 fail_at_zero_ctx ()
         [Run 0; Run 1; Expire; Run 1; Run 0]%nat = Some (Return s)
       ∧ body_calls (trace s) = []
       ∧ (loopErr s = None ↔ Forall (λ ev, is_failure ev = false) (trace s))
       ∧ (∀ err, loopErr s = Some err ->
            ctxErr s = true
            ∧ ∃ w i post pre,
                trace s = post ++ EvOnce w err true :: pre
                ∧ Forall (λ ev, is_once ev = false) pre
                ∧ Forall (λ ev, is_capture ev = false) post
                ∧ EvBody w i (Some err) ∈ pre).
Proof.
  assert (observe (ForWithContext example_default2 false 4 fail_at_zero_ctx ()
                     [Run 0; Run 1; Expire; Run 1; Run 0]%nat)
          = Some (Some (None, (),
                        [EvStop 0 0; EvStop 1 2; EvCancel; EvNext 1 2; EvNext 0 0])))
    as Hobs by reflexivity.
  destruct (ForWithContext example_default2 false 4 fail_at_zero_ctx () _)
    as [[|s]|] eqn:Hfor; [discriminate Hobs| |discriminate Hobs].
  exists s. split; [reflexivity|]. split.
  - injection Hobs as _ _ ->. reflexivity.
  - by apply (ForWithContext_returns_first_captured_error _ _ _ _ _ _ _ Hfor).
Defined.
